(** * app-shell configuration: layered settings and the update handler

    A shallow embedding of [app-shell/src/config.js]: the lazily created
    store, override tree and logger, the handler built by [registerConfig],
    and the read functions [getStore], [getOverrides], [getConfig],
    [getFullConfig] and [handleConfigChange].

    The module calls four packages that are not part of the repository:
    [@thi.ng/paths] (getIn), [merge-options], [electron-store] (a thin
    wrapper of [conf], which addresses its document with [dot-prop]) and
    [yargs-parser].  The first three are modelled in [Module Lib] from
    their published behaviour; the argument parser is left abstract (a
    field of the process environment).

    Values are JSON data: [null], booleans, numbers (the integers that
    settings use), strings, arrays and objects; an object is a finite map
    from keys to values.  JavaScript's [undefined] is [None] in
    [option json].  Property access sees the own data properties of a
    value (and [length] of arrays and strings); members inherited from a
    prototype are functions, not configuration data, and are outside the
    model.  The value an action carries is JSON data.

    Effects are explicit: a function of the module is a function from
    the world (module variables, document file, what was sent, logged
    and called back) to the new world and a result or a thrown error. *)

From Stdlib Require Import ZArith Ascii String.
From stdpp Require Import gmap strings list fin_maps.

#[local] Open Scope string_scope.
#[local] Open Scope Z_scope.

(** ** Data model *)

#[warnings="-register-all"]
Inductive json :=
  | JNull
  | JBool (b : bool)
  | JNum (n : Z)
  | JStr (s : string)
  | JArr (l : list json)
  | JObj (m : gmap string json).

(** A JavaScript value: [None] is [undefined]. *)
Abbreviation jsval := (option json).
Abbreviation obj := (gmap string json).

Fixpoint json_eq_dec (x y : json) : Decision (x = y).
Proof.
  refine (match x, y with
          | JNull, JNull => left _
          | JBool a, JBool b => cast_if (decide (a = b))
          | JNum a, JNum b => cast_if (decide (a = b))
          | JStr a, JStr b => cast_if (decide (a = b))
          | JArr a, JArr b =>
              cast_if (@decide (a = b) (@list_eq_dec _ json_eq_dec a b))
          | JObj a, JObj b =>
              cast_if (@decide (a = b) (@gmap_eq_dec _ _ _ _ json_eq_dec a b))
          | _, _ => right _
          end); congruence.
Defined.
#[global] Instance json_eq : EqDecision json := json_eq_dec.

(** [x != null]: neither [undefined] nor [null]. *)
Definition not_nullish (x : jsval) : bool :=
  match x with
  | None | Some JNull => false
  | Some _ => true
  end.

(** [typeof x === 'object' && x != null]: arrays and objects. *)
Definition is_object_type (x : jsval) : bool :=
  match x with
  | Some (JArr _) | Some (JObj _) => true
  | _ => false
  end.

(** The spec's scalars that [!= null] lets through. *)
Definition is_scalar (v : json) : bool :=
  match v with
  | JBool _ | JNum _ | JStr _ => true
  | _ => false
  end.

Inductive JsError :=
  | TypeError (msg : string)
  | RangeError (msg : string).

Inductive result (A : Type) :=
  | Ok (a : A)
  | Throw (e : JsError).
Arguments Ok {A} a.
Arguments Throw {A} e.

(** Whether the conversion of a value to a string, as a template literal
    does it, throws.  An object is converted by its [toString] member and
    then by [valueOf]: the inherited [toString] gives a string, but an own
    member of that name is data, which cannot be called, and then
    [valueOf] gives no primitive either: [TypeError].  An array joins the
    conversions of its elements.  Everything else has a string. *)
Fixpoint ToString_throws (v : json) : bool :=
  match v with
  | JObj m => bool_decide (is_Some (m !! "toString"))
  | JArr l => existsb ToString_throws l
  | _ => false
  end.

(** ** Strings and paths *)

(** [s.split('.')]: never empty. *)
Fixpoint split_dot (s : string) : list string :=
  match s with
  | EmptyString => [EmptyString]
  | String c s' =>
      if Ascii.eqb c "."%char then EmptyString :: split_dot s'
      else match split_dot s' with
           | [] => [String c EmptyString]
           | h :: t => String c h :: t
           end
  end.

Fixpoint last_char (s : string) : option ascii :=
  match s with
  | EmptyString => None
  | String c EmptyString => Some c
  | String _ s' => last_char s'
  end.

(** [p.slice(0, -1)] *)
Fixpoint drop_last (s : string) : string :=
  match s with
  | EmptyString => EmptyString
  | String _ EmptyString => EmptyString
  | String c s' => String c (drop_last s')
  end.

Definition digit (c : ascii) : option N :=
  let n := N_of_ascii c in
  if ((48 <=? n) && (n <=? 57))%N then Some (n - 48)%N else None.

Fixpoint parse_digits (acc : N) (s : string) : option N :=
  match s with
  | EmptyString => Some acc
  | String c s' =>
      match digit c with
      | Some d => parse_digits (10 * acc + d)%N s'
      | None => None
      end
  end.

(** A property key that is an array index: a canonical decimal numeral
    below 2^32 - 1. *)
Definition array_index (k : string) : option nat :=
  match k with
  | EmptyString => None
  | String c EmptyString => N.to_nat <$> digit c
  | String c _ =>
      if Ascii.eqb c "0"%char then None
      else match parse_digits 0 k with
           | Some n => if (n <? 4294967295)%N then Some (N.to_nat n) else None
           | None => None
           end
  end.

Fixpoint nth_char (s : string) (i : nat) : option ascii :=
  match s, i with
  | EmptyString, _ => None
  | String c _, O => Some c
  | String _ s', S i' => nth_char s' i'
  end.

(** Own enumerable properties: the members of an object, the elements of
    an array, the characters of a string. *)
Definition own_enumerable (v : json) (k : string) : jsval :=
  match v with
  | JObj m => m !! k
  | JArr l => i ← array_index k; l !! i
  | JStr s =>
      i ← array_index k; c ← nth_char s i; Some (JStr (String c EmptyString))
  | _ => None
  end.

(** [v[k]] for a [v] that is neither [undefined] nor [null]. *)
Definition js_prop (v : json) (k : string) : jsval :=
  match v with
  | JArr l =>
      if String.eqb k "length" then Some (JNum (Z.of_nat (length l)))
      else own_enumerable v k
  | JStr s =>
      if String.eqb k "length" then Some (JNum (Z.of_nat (String.length s)))
      else own_enumerable v k
  | _ => own_enumerable v k
  end.

(** [isObj] of the [is-obj] package: objects and arrays. *)
Definition isObj (x : jsval) : bool := is_object_type x.

(** [isPlainObj] of [is-plain-obj]: object literals only. *)
Definition isOptionObject (x : json) : bool :=
  match x with
  | JObj _ => true
  | _ => false
  end.

(** ** The packages the module calls *)

Module Lib.

(** *** [@thi.ng/paths] *)

(** [toPath]: a non-empty string is split at its dots; the empty string
    and [undefined] are the empty path. *)
Definition toPath (path : option string) : list string :=
  match path with
  | Some p => if String.eqb p EmptyString then [] else split_dot p
  | None => []
  end.

(** [getter(ks)(s)]: follow [ks], giving [undefined] as soon as the
    value to index is [undefined] or [null]. *)
Fixpoint getter (ks : list string) (s : jsval) : jsval :=
  match ks with
  | [] => s
  | k :: ks' =>
      match s with
      | Some v => if not_nullish s then getter ks' (js_prop v k) else None
      | None => None
      end
  end.

Definition getIn (state : jsval) (path : option string) : jsval :=
  getter (toPath path) state.

(** *** [dot-prop], which [conf] and [electron-store] address with *)

Definition ends_with_backslash (p : string) : bool :=
  match last_char p with
  | Some c => Ascii.eqb c (ascii_of_nat 92)
  | None => false
  end.

(** The loop of [getPathSegments]: a part that ends with a backslash
    swallows the dot and the part after it. *)
Fixpoint segments_from (p : string) (rest : list string) : list string :=
  match rest with
  | [] => [p]
  | q :: rest' =>
      if ends_with_backslash p
      then segments_from (drop_last p ++ "." ++ q)%string rest'
      else p :: segments_from q rest'
  end.

Definition getPathSegments (path : string) : list string :=
  match split_dot path with
  | [] => []
  | p :: rest => segments_from p rest
  end.

(** The loop of [get]: every step must name an own enumerable property;
    [null] before the last segment gives [undefined]. *)
Fixpoint get_segments (segs : list string) (o : json) : jsval :=
  match segs with
  | [] => Some o
  | k :: rest =>
      match own_enumerable o k with
      | None => None
      | Some JNull => match rest with [] => Some JNull | _ => None end
      | Some v => get_segments rest v
      end
  end.

(** [dotProp.get(obj, path)] without default value. *)
Definition get (o : json) (path : option string) : jsval :=
  match path with
  | Some p =>
      if isObj (Some o) then get_segments (getPathSegments p) o else Some o
  | None => Some o
  end.

(** [if (!isObj(obj[p])) obj[p] = {}] *)
Definition child_or_empty (c : jsval) : json :=
  match c with
  | Some (JObj m) => JObj m
  | Some (JArr l) => JArr l
  | _ => JObj ∅
  end.

(** [arr[i] = c] as the document file keeps it: an assignment past the
    end leaves holes, which are written as [null]. *)
Definition array_put (l : list json) (i : nat) (c : json) : list json :=
  if (i <? length l)%nat then <[i := c]> l
  else (l ++ replicate (i - length l) JNull ++ [c])%list.

(** The loop of [set], followed by the JSON round trip of the document
    file.  On an array, a key that is not an index adds a member that
    is not written to the file, and [length] cannot hold an object.
    Every segment is taken as the name of an own member: a segment that
    names an inherited member, or one that dot-prop refuses, is not a
    data key ([data_key] below tells them apart). *)
Fixpoint set_segments (segs : list string) (value : json) (o : json)
  : result json :=
  match segs with
  | [] => Ok o
  | k :: rest =>
      match o with
      | JObj m =>
          match rest with
          | [] => Ok (JObj (<[k := value]> m))
          | _ =>
              match set_segments rest value (child_or_empty (m !! k)) with
              | Ok c => Ok (JObj (<[k := c]> m))
              | Throw e => Throw e
              end
          end
      | JArr l =>
          if String.eqb k "length"
          then Throw (RangeError "Invalid array length")
          else
            match array_index k with
            | Some i =>
                match
                  match rest with
                  | [] => Ok value
                  | _ => set_segments rest value (child_or_empty (l !! i))
                  end
                with
                | Ok c => Ok (JArr (array_put l i c))
                | Throw e => Throw e
                end
            | None => Ok o
            end
      | _ => Ok o
      end
  end.

(** [dotProp.set(store, key, value)] on the document. *)
Definition set (doc : obj) (path : string) (value : json) : result obj :=
  match set_segments (getPathSegments path) value (JObj doc) with
  | Ok (JObj doc') => Ok doc'
  | Ok _ => Ok doc
  | Throw e => Throw e
  end.

(** *** [merge-options] *)

(** [merge(merged, source)]: two option objects are merged key by key
    ([mergeKeys]); anything else is replaced by the source. *)
Fixpoint merge (merged source : json) : json :=
  match merged, source with
  | JObj m, JObj s => JObj (union_with (λ a b, Some (merge a b)) m s)
  | _, _ => source
  end.

Definition mergeKeys (m s : obj) : obj :=
  union_with (λ a b, Some (merge a b)) m s.

(** [mergeOptions(...options)]: [undefined] arguments are skipped, an
    argument that is not an option object is a [TypeError] (whose
    message, which quotes the argument, is shortened here). *)
Definition mergeOptions (options : list jsval) : result json :=
  foldl
    (λ acc option,
      match acc, option with
      | Throw e, _ => Throw e
      | Ok merged, None => Ok merged
      | Ok merged, Some o =>
          if isOptionObject o then Ok (merge merged o)
          else Throw (TypeError "not an Option Object")
      end)
    (Ok (JObj ∅)) options.

(** *** [electron-store]: change listeners *)

(** What [onDidChange(key, callback)] keeps: the key, the callback (a
    name stands for the closure) and the value last seen at the key. *)
Record Subscription := {
  sub_key : string;
  sub_callback : nat;
  sub_current : jsval;
}.

(** A callback call: [callback(newValue, oldValue)]. *)
Record Call := {
  call_callback : nat;
  call_new : jsval;
  call_old : jsval;
}.

(** The listener of one subscription, run when the document was
    written: it reads its key again and calls back only if the value
    is no longer deep-equal to the one last seen.  Deep equality is
    equality of JSON values here (Node's legacy [deepEqual] also takes
    [1] and ['1'] for equal, and so suppresses more). *)
Definition onChange (doc : obj) (s : Subscription)
  : Subscription * list Call :=
  let newValue := get (JObj doc) (Some (sub_key s)) in
  if decide (newValue = sub_current s) then (s, [])
  else ({| sub_key := sub_key s; sub_callback := sub_callback s;
           sub_current := newValue |},
        [{| call_callback := sub_callback s; call_new := newValue;
            call_old := sub_current s |}]).

(** [events.emit('change')]: the listeners run in registration order. *)
Fixpoint emit_change (doc : obj) (subs : list Subscription)
  : list Subscription * list Call :=
  match subs with
  | [] => ([], [])
  | s :: rest =>
      let '(s', c) := onChange doc s in
      let '(rest', cs) := emit_change doc rest in
      (s' :: rest', (c ++ cs)%list)
  end.

End Lib.

(** ** Actions, log lines and the process *)

(** The payload of [config:UPDATE] and [config:SET]. *)
Record Payload := {
  path : string;
  value : json;
}.

Record Action := {
  type : string;
  payload : Payload;
}.

Inductive Level := debug | info.

(** The three messages [config.js] logs. *)
Inductive Message :=
  | Handling (p : Payload)
  | InOverrides (p : string)
  | Updating (p : string) (v : json).

Record Line := {
  line_level : Level;
  line_message : Message;
}.

(** The options [config.js] gives the argument parser. *)
Record Configuration := {
  negation_prefix : string;
}.

Record ParseOptions := {
  envPrefix : string;
  configuration : Configuration;
}.

Definition PARSE_ARGS_OPTS : ParseOptions :=
  {| envPrefix := "OT_APP";
     configuration := {| negation_prefix := "disable_" |} |}.

(** What the module takes from its surroundings when it is loaded.  The
    argument parser of [yargs-parser] is a function of the arguments and
    the options (and of the environment variables, which are fixed for
    the process). *)
Record Env := {
  process_argv : list string;
  (** ['defaultApp' in process] *)
  process_defaultApp : bool;
  yargsParser : list string → ParseOptions → obj;
  (** [pkg.version.includes('beta')] *)
  version_is_beta : bool;
  (** the two [uuid()] calls *)
  appId_uuid : string;
  userId_uuid : string;
  (** [Date.now()] *)
  now : Z;
  (** [app.getPath('userData')] *)
  userData : string;
  __filename : string;
}.

(** make sure all arguments are included in production *)
Definition argv (env : Env) : list string :=
  if process_defaultApp env then drop 2 (process_argv env)
  else drop 1 (process_argv env).

(** [path.join(a, b)] for two plain components. *)
Definition path_join (a b : string) : string := (a ++ "/" ++ b)%string.

Definition object (fields : list (string * json)) : json :=
  JObj (list_to_map fields).

Definition DEFAULTS (env : Env) : obj :=
  list_to_map
    [ ("devtools", JBool false);
      ("update",
        object [("channel",
                  JStr (if version_is_beta env then "beta" else "latest"))]);
      ("buildroot",
        object [("manifestUrl",
                  JStr "https://opentrons-buildroot-ci.s3.us-east-2.amazonaws.com/releases.json")]);
      ("log",
        object [("level",
                  object [("file", JStr "debug"); ("console", JStr "info")])]);
      ("ui",
        object [("width", JNum 1024);
                ("height", JNum 768);
                ("url",
                  object [("protocol", JStr "file:");
                          ("path", JStr "ui/index.html")]);
                ("webPreferences", object [("webSecurity", JBool true)])]);
      ("analytics",
        object [("appId", JStr (appId_uuid env));
                ("optedIn", JBool false);
                ("seenOptIn", JBool false)]);
      ("p10WarningSeen", object []);
      ("support",
        object [("userId", JStr (userId_uuid env));
                ("createdAt", JNum (now env / 1000));
                ("name", JStr "Unknown User");
                ("email", JNull)]);
      ("discovery", object [("candidates", JArr [])]);
      ("labware",
        object [("directory", JStr (path_join (userData env) "labware"))]) ].

(** The [Store] instance: its change listeners.  The document itself is
    the file, which [conf] reads at every access. *)
Record Store := {
  listeners : list Lib.Subscription;
}.

Record Logger := {
  logger_label : string;
}.

(** The state the module's functions act on: the three module variables,
    the document file, and what left the module (dispatched actions, log
    lines, change callbacks run).  [parses], [opens] and [reads] are
    probes that count the calls of the argument parser, of the [Store]
    constructor and of the store's read methods. *)
Record World := {
  _store : option Store;
  _over : option obj;
  _log : option Logger;
  disk : obj;
  sent : list Action;
  logged : list Line;
  called : list Lib.Call;
  parses : nat;
  opens : nat;
  reads : nat;
}.

(** The process before the module's first use; [file] is the content of
    the document file (empty when there is none). *)
Definition boot (file : obj) : World :=
  {| _store := None; _over := None; _log := None; disk := file;
     sent := []; logged := []; called := [];
     parses := 0; opens := 0; reads := 0 |}.

(** ** State and exceptions *)

Definition M (A : Type) : Type := World → World * result A.

Definition ret {A} (a : A) : M A := λ w, (w, Ok a).

Definition bind {A B} (m : M A) (k : A → M B) : M B :=
  λ w, match m w with
       | (w', Ok a) => k a w'
       | (w', Throw e) => (w', Throw e)
       end.

Definition throw {A} (e : JsError) : M A := λ w, (w, Throw e).

#[global] Instance M_ret : MRet M := @ret.
#[global] Instance M_bind : MBind M := λ A B k m, bind m k.

(** The world a computation leaves, and what it returns. *)
Definition exec {A} (m : M A) (w : World) : World := fst (m w).
Definition eval {A} (m : M A) (w : World) : result A := snd (m w).

(** Field updates. *)
Definition with_store (x : option Store) (w : World) : World :=
  {| _store := x; _over := _over w; _log := _log w; disk := disk w;
     sent := sent w; logged := logged w; called := called w;
     parses := parses w; opens := opens w; reads := reads w |}.
Definition with_over (x : option obj) (w : World) : World :=
  {| _store := _store w; _over := x; _log := _log w; disk := disk w;
     sent := sent w; logged := logged w; called := called w;
     parses := parses w; opens := opens w; reads := reads w |}.
Definition with_log (x : option Logger) (w : World) : World :=
  {| _store := _store w; _over := _over w; _log := x; disk := disk w;
     sent := sent w; logged := logged w; called := called w;
     parses := parses w; opens := opens w; reads := reads w |}.
Definition with_disk (x : obj) (w : World) : World :=
  {| _store := _store w; _over := _over w; _log := _log w; disk := x;
     sent := sent w; logged := logged w; called := called w;
     parses := parses w; opens := opens w; reads := reads w |}.
Definition with_sent (x : list Action) (w : World) : World :=
  {| _store := _store w; _over := _over w; _log := _log w; disk := disk w;
     sent := x; logged := logged w; called := called w;
     parses := parses w; opens := opens w; reads := reads w |}.
Definition with_logged (x : list Line) (w : World) : World :=
  {| _store := _store w; _over := _over w; _log := _log w; disk := disk w;
     sent := sent w; logged := x; called := called w;
     parses := parses w; opens := opens w; reads := reads w |}.
Definition with_called (x : list Lib.Call) (w : World) : World :=
  {| _store := _store w; _over := _over w; _log := _log w; disk := disk w;
     sent := sent w; logged := logged w; called := x;
     parses := parses w; opens := opens w; reads := reads w |}.
Definition with_parses (x : nat) (w : World) : World :=
  {| _store := _store w; _over := _over w; _log := _log w; disk := disk w;
     sent := sent w; logged := logged w; called := called w;
     parses := x; opens := opens w; reads := reads w |}.
Definition with_opens (x : nat) (w : World) : World :=
  {| _store := _store w; _over := _over w; _log := _log w; disk := disk w;
     sent := sent w; logged := logged w; called := called w;
     parses := parses w; opens := x; reads := reads w |}.
Definition with_reads (x : nat) (w : World) : World :=
  {| _store := _store w; _over := _over w; _log := _log w; disk := disk w;
     sent := sent w; logged := logged w; called := called w;
     parses := parses w; opens := opens w; reads := x |}.

Definition modify (f : World → World) : M unit := λ w, (f w, Ok ()).
Definition gets {A} (f : World → A) : M A := λ w, (w, Ok (f w)).

(** ** The store's methods, on the world *)

(** The getter [store.store]: the document, read from its file. *)
Definition Store_store : M obj :=
  modify (λ w, with_reads (S (reads w)) w);; gets disk.

(** [store.get(key)] *)
Definition Store_get (key : option string) : M jsval :=
  doc ← Store_store; mret (Lib.get (JObj doc) key).

(** The setter [store.store = doc]: write the file, then emit [change];
    every listener reads its key again. *)
Definition Store_write (doc : obj) : M unit :=
  modify (with_disk doc);;
  st ← gets _store;
  match st with
  | Some s =>
      let '(ls, cs) := Lib.emit_change doc (listeners s) in
      modify (λ w, with_reads (length ls + reads w)%nat w);;
      modify (with_store (Some {| listeners := ls |}));;
      modify (λ w, with_called (called w ++ cs)%list w)
  | None => mret ()
  end.

(** [new Store({ defaults })]: the document is the file's content over
    the defaults, key by key at the top level, and is written back. *)
Definition new_Store (defaults : obj) : M Store :=
  modify (λ w, with_opens (S (opens w)) w);;
  fileStore ← Store_store;
  modify (with_disk (fileStore ∪ defaults));;
  mret {| listeners := [] |}.

(** [store.set(key, value)] with a string key and a defined value. *)
Definition Store_set (key : string) (v : json) : M unit :=
  doc ← Store_store;
  match Lib.set doc key v with
  | Ok doc' => Store_write doc'
  | Throw e => throw e
  end.

(** [store.onDidChange(key, callback)]: remember the value now at the
    key and listen to [change]. *)
Definition Store_onDidChange (key : string) (callback : nat) : M unit :=
  currentValue ← Store_get (Some key);
  st ← gets _store;
  match st with
  | Some s =>
      modify (with_store (Some {| listeners :=
        (listeners s ++ [{| Lib.sub_key := key; Lib.sub_callback := callback;
                            Lib.sub_current := currentValue |}])%list |}))
  | None => mret ()
  end.

(** ** [config.js] *)

(** Modelled from the spec: [./log] ([createLogger]) is a module of the
    repository that is not among the sources.  A logger is a sink: a call
    of [debug] or [info] adds one line at that level, and nothing else
    happens. *)
Definition createLogger (filename : string) : M Logger :=
  mret {| logger_label := filename |}.

Definition Logger_log (lvl : Level) (msg : Message) : M unit :=
  modify (λ w,
    with_logged
      (logged w ++ [{| line_level := lvl; line_message := msg |}])%list w).

(** [result => { throw | return }] for a pure package call. *)
Definition lift {A} (r : result A) : M A :=
  match r with
  | Ok a => mret a
  | Throw e => throw e
  end.

(** [`Updating "${path}" to ${value}`]: the message, once the value is
    converted to a string. *)
Definition Updating_template (path : string) (value : json) : result Message :=
  if ToString_throws value
  then Throw (TypeError "Cannot convert object to primitive value")
  else Ok (Updating path value).

(** [dispatch] as [main.js] wires it: the action goes out to the
    renderer. *)
Definition send (action : Action) : M unit :=
  modify (λ w, with_sent (sent w ++ [action])%list w).

Section Config.
Context (env : Env).

(** [_store || (_store = new Store({ defaults: DEFAULTS }))] *)
Definition store : M Store :=
  cached ← gets _store;
  match cached with
  | Some s => mret s
  | None =>
      s ← new_Store (DEFAULTS env);
      modify (with_store (Some s));;
      mret s
  end.

(** [_over || (_over = yargsParser(argv, PARSE_ARGS_OPTS))]: the parser
    gives an object, which is truthy, so a cached tree is reused. *)
Definition overrides : M obj :=
  cached ← gets _over;
  match cached with
  | Some o => mret o
  | None =>
      modify (λ w, with_parses (S (parses w)) w);;
      let o := yargsParser env (argv env) PARSE_ARGS_OPTS in
      modify (with_over (Some o));;
      mret o
  end.

(** [_log || (_log = createLogger(__filename))] *)
Definition log : M Logger :=
  cached ← gets _log;
  match cached with
  | Some l => mret l
  | None =>
      l ← createLogger (__filename env);
      modify (with_log (Some l));;
      mret l
  end.

(** The function [registerConfig(dispatch)] returns.  In
    [log().info(`...`)] the logger is fetched before the message is
    built, and the message before anything is written. *)
Definition handleIncomingAction (dispatch : Action → M unit)
    (action : Action) : M unit :=
  if String.eqb (type action) "config:UPDATE" then
    let payload := payload action in
    log;; Logger_log debug (Handling payload);;
    over ← overrides;
    if not_nullish (Lib.getIn (Some (JObj over)) (Some (path payload))) then
      log;; Logger_log info (InOverrides (path payload))
    else
      log;; message ← lift (Updating_template (path payload) (value payload));
      Logger_log info message;;
      store;; Store_set (path payload) (value payload);;
      dispatch {| type := "config:SET"; payload := payload |}
  else mret ().

Definition registerConfig (dispatch : Action → M unit)
  : Action → M unit :=
  handleIncomingAction dispatch.

Definition getStore : M obj :=
  store;; Store_store.

Definition getOverrides (path : option string) : M jsval :=
  over ← overrides;
  mret (Lib.getIn (Some (JObj over)) path).

Definition getConfig (path : option string) : M jsval :=
  store;; result ← Store_get path;
  tree ← overrides;
  let over := Lib.getIn (Some (JObj tree)) path in
  if not_nullish over then
    if is_object_type result then
      merged ← lift (Lib.mergeOptions [result; over]);
      mret (Some merged)
    else mret over
  else mret result.

Definition getFullConfig : M jsval :=
  getConfig None.

Definition handleConfigChange (path : string) (changeHandler : nat)
  : M unit :=
  store;; Store_onDidChange path changeHandler.

End Config.

(** ** Notions the properties are stated with *)

(** The proper ancestors of a path: what stands before each of its
    dots. *)
Fixpoint ancestors (p : string) : list string :=
  match p with
  | EmptyString => []
  | String c p' =>
      ((if Ascii.eqb c "."%char then [EmptyString] else [])
         ++ map (String c) (ancestors p'))%list
  end.

(** Follow object members only. *)
Fixpoint descend (ks : list string) (v : json) : jsval :=
  match ks with
  | [] => Some v
  | k :: ks' =>
      match v with
      | JObj m => m !! k ≫= descend ks'
      | _ => None
      end
  end.

(** What one level of a resolved object must hold, given the stored
    object and the override object at the same place: a key the
    override lacks keeps the stored member; a key the override has
    holds the override's member, unless both members are objects, and
    then it holds an object (which the next level describes). *)
Definition level_resolved (s o r : obj) : Prop :=
  ∀ k,
    match o !! k with
    | None => r !! k = s !! k
    | Some ov =>
        match s !! k, ov with
        | Some (JObj _), JObj _ => ∃ x, r !! k = Some (JObj x)
        | _, _ => r !! k = Some ov
        end
    end.

(** [level_resolved] wherever both trees hold an object. *)
Definition resolved_at_every_depth (s o r : obj) : Prop :=
  ∀ ks s' o',
    descend ks (JObj s) = Some (JObj s') →
    descend ks (JObj o) = Some (JObj o') →
    ∃ r', descend ks (JObj r) = Some (JObj r') ∧ level_resolved s' o' r'.

(** The body of [getConfig] once both layers are read. *)
Definition resolved (stored over : jsval) : result jsval :=
  if not_nullish over then
    if is_object_type stored then
      match Lib.mergeOptions [stored; over] with
      | Ok merged => Ok (Some merged)
      | Throw e => Throw e
      end
    else Ok over
  else Ok stored.

(** One more log line. *)
Definition add_line (lvl : Level) (msg : Message) (w : World) : World :=
  with_logged
    (logged w ++ [{| line_level := lvl; line_message := msg |}])%list w.

(** The world after the setter [store.store = doc]. *)
Definition after_write (doc : obj) (w : World) : World :=
  match _store w with
  | Some s =>
      let lc := Lib.emit_change doc (listeners s) in
      with_called (called w ++ lc.2)%list
        (with_store (Some {| listeners := lc.1 |})
           (with_reads (length lc.1 + reads w)%nat (with_disk doc w)))
  | None => with_disk doc w
  end.








Section Notions.
Context (env : Env).

(** The tree [overrides()] returns in a world. *)
Definition tree_of (w : World) : obj :=
  default (yargsParser env (argv env) PARSE_ARGS_OPTS) (_over w).

(** The document [store()] gives access to in a world. *)
Definition document_of (w : World) : obj :=
  match _store w with
  | Some _ => disk w
  | None => disk w ∪ DEFAULTS env
  end.

(** The test of [handleIncomingAction]:
    [getIn(overrides(), path) != null]. *)
Definition has_override (w : World) (p : string) : bool :=
  match eval (getOverrides env (Some p)) w with
  | Ok over => not_nullish over
  | Throw _ => false
  end.

(** The spec's [hasOverride]: an override value at the path or at one
    of its ancestors. *)
Definition covered_by_override (w : World) (p : string) : bool :=
  existsb (has_override w) (p :: ancestors p).

(** A write request is rejected: the handler logs that the path is in
    the overrides, and neither the document, nor the listeners, nor
    the actions sent change. *)
Definition rejected (w : World) (action : Action) : Prop :=
  let w' := exec (registerConfig env send action) w in
  logged w' =
    (logged w ++
      [ {| line_level := debug; line_message := Handling (payload action) |};
        {| line_level := info;
           line_message := InOverrides (path (payload action)) |} ])%list
  ∧ disk w' = disk w ∧ _store w' = _store w
  ∧ sent w' = sent w ∧ called w' = called w.

(** The world after [store()]. *)
Definition opened (w : World) : World :=
  match _store w with
  | Some _ => w
  | None =>
      with_store (Some {| listeners := [] |})
        (with_disk (disk w ∪ DEFAULTS env)
           (with_reads (S (reads w)) (with_opens (S (opens w)) w)))
  end.

(** The world after [overrides()]. *)
Definition parsed (w : World) : World :=
  match _over w with
  | Some _ => w
  | None =>
      with_over (Some (yargsParser env (argv env) PARSE_ARGS_OPTS))
        (with_parses (S (parses w)) w)
  end.

(** The world after [log()]. *)
Definition with_logger (w : World) : World :=
  match _log w with
  | Some _ => w
  | None => with_log (Some {| logger_label := __filename env |}) w
  end.

End Notions.

(** The calls the rest of the application makes into the module. *)
Inductive Request :=
  | UseStore
  | UseOverrides
  | UseLog
  | Dispatch (a : Action)
  | GetStore
  | GetOverrides (p : option string)
  | GetConfig (p : option string)
  | GetFullConfig
  | HandleConfigChange (p : string) (changeHandler : nat).

Definition request (env : Env) (r : Request) : World → World :=
  match r with
  | UseStore => exec (store env)
  | UseOverrides => exec (overrides env)
  | UseLog => exec (log env)
  | Dispatch a => exec (registerConfig env send a)
  | GetStore => exec (getStore env)
  | GetOverrides p => exec (getOverrides env p)
  | GetConfig p => exec (getConfig env p)
  | GetFullConfig => exec (getFullConfig env)
  | HandleConfigChange p h => exec (handleConfigChange env p h)
  end.

Definition requests (env : Env) (rs : list Request) (w : World) : World :=
  foldl (λ w r, request env r w) w rs.

(** Each lazy value was made at most once, and the cached tree is the
    parser's. *)
Definition made_once (env : Env) (w : World) : Prop :=
  match _over w with
  | None => parses w = 0%nat
  | Some o => parses w = 1%nat ∧ o = yargsParser env (argv env) PARSE_ARGS_OPTS
  end
  ∧ match _store w with
    | None => opens w = 0%nat
    | Some _ => opens w = 1%nat
    end.

Definition preserves {A} (I : World → Prop) (m : M A) : Prop :=
  ∀ w, I w → I (exec m w).

(** Every listener has seen the value the document holds at its key. *)
Definition in_step (doc : obj) (subs : list Lib.Subscription) : Prop :=
  Forall (λ s, Lib.sub_current s = Lib.get (JObj doc) (Some (Lib.sub_key s))) subs.

(** A key that is one path segment: not empty, no dot. *)
Fixpoint no_dot (k : string) : bool :=
  match k with
  | EmptyString => true
  | String c k' => negb (Ascii.eqb c "."%char) && no_dot k'
  end.

Definition plain_key (k : string) : bool :=
  negb (String.eqb k EmptyString) && no_dot k.

(** Put per-key results back into one document; a key whose resolution
    is [undefined] is left out, and a resolution that throws makes the
    whole fail. *)
Fixpoint recombine (parts : list (string * result jsval)) : result obj :=
  match parts with
  | [] => Ok ∅
  | (k, r) :: rest =>
      match r, recombine rest with
      | Ok (Some v), Ok m => Ok (<[k := v]> m)
      | Ok None, Ok m => Ok m
      | Throw e, _ => Throw e
      | _, Throw e => Throw e
      end
  end.

(** The spec's reading of the full document: every top-level key of the
    defaults resolved on its own, and the results recombined. *)
Definition resolve_each_default_key (env : Env) (w : World) : result obj :=
  recombine
    (map (λ k, (k, eval (getConfig env (Some k)) w))
         (map fst (map_to_list (DEFAULTS env)))).

(** The override value at a path is [null]. *)
Definition override_is_null (env : Env) (w : World) (p : string) : bool :=
  match eval (getOverrides env (Some p)) w with
  | Ok (Some JNull) => true
  | _ => false
  end.

(** ** Sample processes *)

(** A process whose argument parser gives [tree]. *)
Definition sample_env (tree : obj) : Env :=
  {| process_argv := ["/opt/Opentrons/opentrons"]; process_defaultApp := false;
     yargsParser := λ _ _, tree; version_is_beta := false;
     appId_uuid := "6f1b4c4e-0000-4000-8000-000000000001";
     userId_uuid := "6f1b4c4e-0000-4000-8000-000000000002";
     now := 1561939200000; userData := "/home/user/.config/Opentrons";
     __filename := "config.js" |}.

(** No flag at all: the parser still gives the positional arguments. *)
Definition no_flags : obj := list_to_map [("_", JArr [])].

(** [--log.level.console=debug] *)
Definition console_debug : obj :=
  list_to_map
    [("_", JArr []);
     ("log", object [("level", object [("console", JStr "debug")])])].

(** [--ui.url=http://localhost:8090]: a string where the defaults hold
    an object. *)
Definition url_string : obj :=
  list_to_map
    [("_", JArr []); ("ui", object [("url", JStr "http://localhost:8090")])].

(** [--log=verbose] *)
Definition log_verbose : obj :=
  list_to_map [("_", JArr []); ("log", JStr "verbose")].

Definition update (p : string) (v : json) : Action :=
  {| type := "config:UPDATE"; payload := {| path := p; value := v |} |}.

(** ** More notions: reads, writes and listeners *)

(** The world after a read of the store and of the override tree, in
    the order [getConfig] makes them. *)
Definition after_read (env : Env) (w : World) : World :=
  parsed env (with_reads (S (reads (opened env w))) (opened env w)).

(** The listeners of the store, none before it exists. *)
Definition listeners_of (w : World) : list Lib.Subscription :=
  from_option listeners [] (_store w).

(** The calls that only read. *)
Definition is_read (r : Request) : bool :=
  match r with
  | Dispatch _ | HandleConfigChange _ _ => false
  | _ => true
  end.

(** The first segment of a store path. *)
Definition first_segment (p : string) : string :=
  default EmptyString (head (Lib.getPathSegments p)).

(** The callback calls a write owes: one for each listener, in
    registration order, whose key holds another value after the write
    than before. *)
Definition changed_calls (before after : obj)
    (subs : list Lib.Subscription) : list Lib.Call :=
  flat_map
    (λ s,
      let old := Lib.get (JObj before) (Some (Lib.sub_key s)) in
      let new := Lib.get (JObj after) (Some (Lib.sub_key s)) in
      if decide (new = old) then []
      else [{| Lib.call_callback := Lib.sub_callback s;
               Lib.call_new := new; Lib.call_old := old |}])
    subs.

(** The listeners of a world are in step with its document. *)
Definition listeners_in_step (w : World) : Prop :=
  in_step (disk w) (listeners_of w).

(** Every top-level key of the defaults is in the document [store()]
    gives access to. *)
Definition defaults_present (env : Env) (w : World) : Prop :=
  dom (DEFAULTS env) ⊆ dom (document_of env w).

(** The world in which the handler of a [config:UPDATE] chooses its
    branch, and the one in which it writes. *)
Definition deciding (env : Env) (a : Action) (w : World) : World :=
  parsed env (add_line debug (Handling (payload a)) (with_logger env w)).

Definition writing (env : Env) (a : Action) (w : World) : World :=
  add_line info (Updating (path (payload a)) (value (payload a)))
    (with_logger env (deciding env a w)).

(** ** [main.js] *)

(** JavaScript's truthiness. *)
Definition truthy (x : jsval) : bool :=
  match x with
  | None | Some JNull | Some (JBool false) => false
  | Some (JNum n) => negb (n =? 0)%Z
  | Some (JStr s) => negb (String.eqb s EmptyString)
  | Some _ => true
  end.

(** [main.js], when it is loaded: [const config = getConfig()] and the
    test [if (config.devtools)] that decides on [electron-debug]. *)
Definition main_enables_devtools (env : Env) : M bool :=
  config ← getConfig env None;
  match config with
  | Some c =>
      if not_nullish config then mret (truthy (js_prop c "devtools"))
      else throw (TypeError "Cannot read property 'devtools' of null")
  | None => throw (TypeError "Cannot read property 'devtools' of undefined")
  end.

(** * Properties *)

(** ** The packages at small inputs *)

Example split_dot_path :
  split_dot "log.level.console" = ["log"; "level"; "console"]
  ∧ split_dot EmptyString = [EmptyString]
  ∧ split_dot "a..b" = ["a"; EmptyString; "b"].
Proof. repeat split. Qed.

Example getPathSegments_escaped_dot :
  Lib.getPathSegments (String "a" (String (ascii_of_nat 92) ".b.c"))
  = ["a.b"; "c"].
Proof. reflexivity. Qed.

Example array_index_keys :
  array_index "0" = Some 0%nat ∧ array_index "12" = Some 12%nat
  ∧ array_index "01" = None ∧ array_index "foo" = None
  ∧ array_index "length" = None ∧ array_index "4294967295" = None.
Proof. repeat split. Qed.

Example getIn_below_a_scalar :
  Lib.getIn (Some (object [("devtools", JBool true)])) (Some "devtools.x")
  = None
  ∧ Lib.getIn (Some (object [("devtools", JBool true)])) (Some "devtools")
    = Some (JBool true)
  ∧ Lib.getIn (Some (object [("a", JNull)])) (Some "a") = Some JNull
  ∧ Lib.getIn (Some (object [("a", JNull)])) (Some "a.b") = None.
Proof. repeat split. Qed.

Example getIn_of_the_empty_path tree :
  Lib.getIn (Some tree) None = Some tree
  ∧ Lib.getIn (Some tree) (Some EmptyString) = Some tree.
Proof. split; reflexivity. Qed.

Example get_of_the_empty_string :
  Lib.get (object [("a", JNum 1)]) (Some EmptyString) = None
  ∧ Lib.get (object [("a", JNum 1)]) None = Some (object [("a", JNum 1)]).
Proof. split; reflexivity. Qed.

Example mergeOptions_keeps_and_overrides :
  Lib.mergeOptions
    [Some (object [("file", JStr "debug"); ("console", JStr "info")]);
     Some (object [("console", JStr "debug")])]
  = Ok (object [("file", JStr "debug"); ("console", JStr "debug")]).
Proof. vm_compute. reflexivity. Qed.

Example mergeOptions_refuses_a_string :
  Lib.mergeOptions [Some (object []); Some (JStr "verbose")]
  = Throw (TypeError "not an Option Object").
Proof. reflexivity. Qed.

Example set_creates_the_nesting :
  Lib.set ∅ "ui.width" (JNum 800)
  = Ok (list_to_map [("ui", object [("width", JNum 800)])]).
Proof. vm_compute. reflexivity. Qed.

Example set_in_an_array :
  Lib.set (list_to_map [("l", JArr [JNum 1])]) "l.2" (JNum 3)
  = Ok (list_to_map [("l", JArr [JNum 1; JNull; JNum 3])])
  ∧ Lib.set (list_to_map [("l", JArr [JNum 1])]) "l.foo" (JNum 3)
    = Ok (list_to_map [("l", JArr [JNum 1])])
  ∧ Lib.set (list_to_map [("l", JArr [JNum 1])]) "l.length" (JNum 0)
    = Throw (RangeError "Invalid array length").
Proof. repeat split; vm_compute; reflexivity. Qed.

(** ** Running the accessors *)

Lemma bind_run {A B} (m : M A) (k : A → M B) w :
  (m ≫= k) w =
    match m w with
    | (w', Ok a) => k a w'
    | (w', Throw e) => (w', Throw e)
    end.
Proof. reflexivity. Qed.

Section Runs.
Context (env : Env).

Lemma store_run w : ∃ s, store env w = (opened env w, Ok s).
Proof.
  unfold store, opened. rewrite bind_run. unfold gets.
  destruct (_store w) as [s|] eqn:E; eauto.
Qed.

Lemma overrides_run w : overrides env w = (parsed env w, Ok (tree_of env w)).
Proof.
  unfold overrides, parsed, tree_of. rewrite bind_run. unfold gets.
  destruct (_over w) as [o|] eqn:E; reflexivity.
Qed.

Lemma log_run w : ∃ l, log env w = (with_logger env w, Ok l).
Proof.
  unfold log, with_logger. rewrite bind_run. unfold gets.
  destruct (_log w) as [l|] eqn:E; eauto.
Qed.

Lemma Store_get_run key w :
  Store_get key w =
    (with_reads (S (reads w)) w, Ok (Lib.get (JObj (disk w)) key)).
Proof. reflexivity. Qed.

Lemma disk_opened w : disk (opened env w) = document_of env w.
Proof. unfold opened, document_of. by destruct (_store w). Qed.

Lemma tree_of_opened w : tree_of env (opened env w) = tree_of env w.
Proof. unfold opened, tree_of. by destruct (_store w). Qed.

Lemma getOverrides_run p w :
  getOverrides env p w =
    (parsed env w, Ok (Lib.getIn (Some (JObj (tree_of env w))) p)).
Proof. unfold getOverrides. by rewrite bind_run, overrides_run. Qed.

Lemma has_override_eq w p :
  has_override env w p =
    not_nullish (Lib.getIn (Some (JObj (tree_of env w))) (Some p)).
Proof. unfold has_override, eval. by rewrite getOverrides_run. Qed.

Lemma stored_eval p w :
  eval (store env;; Store_get p) w
  = Ok (Lib.get (JObj (document_of env w)) p).
Proof.
  unfold eval. rewrite bind_run.
  destruct (store_run w) as [s ->]. rewrite Store_get_run. simpl.
  by rewrite disk_opened.
Qed.

Lemma getConfig_eval p w :
  eval (getConfig env p) w =
    resolved (Lib.get (JObj (document_of env w)) p)
             (Lib.getIn (Some (JObj (tree_of env w))) p).
Proof.
  unfold eval, getConfig. rewrite bind_run.
  destruct (store_run w) as [s ->]. rewrite bind_run, Store_get_run.
  rewrite bind_run, overrides_run.
  replace (tree_of env (with_reads _ (opened env w))) with (tree_of env w)
    by (symmetry; apply tree_of_opened).
  rewrite disk_opened. unfold resolved.
  destruct (not_nullish _); [|reflexivity].
  destruct (is_object_type _); [|reflexivity].
  rewrite bind_run. unfold lift.
  by destruct (Lib.mergeOptions _).
Qed.

End Runs.

(** ** Writing and reading back *)

Lemma array_index_not_length k i :
  array_index k = Some i → String.eqb k "length" = false.
Proof.
  intros H. destruct (String.eqb_spec k "length") as [->|]; [|done].
  by vm_compute in H.
Qed.

Lemma array_put_lookup l i c : Lib.array_put l i c !! i = Some c.
Proof.
  unfold Lib.array_put. destruct (Nat.ltb_spec i (length l)).
  - by apply list_lookup_insert_eq.
  - rewrite lookup_app_r by done. rewrite lookup_app_r; rewrite length_replicate; [|done].
    by rewrite Nat.sub_diag.
Qed.



Lemma segments_from_nonempty p rest : Lib.segments_from p rest ≠ [].
Proof.
  revert p. induction rest as [|q rest IH]; intros p; simpl; [done|].
  destruct (Lib.ends_with_backslash p); [apply IH|done].
Qed.

Lemma split_dot_nonempty s : split_dot s ≠ [].
Proof.
  induction s as [|c s IH]; simpl; [done|].
  destruct (Ascii.eqb c "."); [done|]. by destruct (split_dot s).
Qed.

Lemma getPathSegments_nonempty p : Lib.getPathSegments p ≠ [].
Proof.
  unfold Lib.getPathSegments. destruct (split_dot p) eqn:E.
  - by apply split_dot_nonempty in E.
  - apply segments_from_nonempty.
Qed.



(** ** Running the handler *)

Section Handler.
Context (env : Env).

Lemma Store_write_run doc w : Store_write doc w = (after_write doc w, Ok ()).
Proof.
  unfold Store_write, after_write. rewrite bind_run. unfold modify at 1.
  rewrite bind_run. unfold gets. cbn [_store with_disk].
  destruct (_store w) as [s|]; [|reflexivity].
  destruct (Lib.emit_change doc (listeners s)) as [ls cs]. reflexivity.
Qed.

Lemma Store_set_run key v w :
  Store_set key v w =
    match Lib.set (disk w) key v with
    | Ok doc => (after_write doc (with_reads (S (reads w)) w), Ok ())
    | Throw e => (with_reads (S (reads w)) w, Throw e)
    end.
Proof.
  unfold Store_set. rewrite bind_run. unfold Store_store.
  rewrite bind_run. unfold modify, gets. cbn [disk with_reads].
  destruct (Lib.set (disk w) key v); [apply Store_write_run|reflexivity].
Qed.

Lemma handler_run dispatch a w :
  type a = "config:UPDATE" →
  registerConfig env dispatch a w =
    let w1 :=
      parsed env (add_line debug (Handling (payload a)) (with_logger env w)) in
    if has_override env w (path (payload a)) then
      (add_line info (InOverrides (path (payload a))) (with_logger env w1),
       Ok ())
    else if ToString_throws (value (payload a)) then
      (with_logger env w1,
       Throw (TypeError "Cannot convert object to primitive value"))
    else
      (store env;; Store_set (path (payload a)) (value (payload a));;
       dispatch {| type := "config:SET"; payload := payload a |})
        (add_line info (Updating (path (payload a)) (value (payload a)))
           (with_logger env w1)).
Proof.
  intros Ht. unfold registerConfig, handleIncomingAction. rewrite Ht. simpl.
  rewrite bind_run. destruct (log_run env w) as [l ->].
  rewrite bind_run. unfold Logger_log at 1, modify at 1.
  rewrite bind_run, overrides_run.
  fold (add_line debug (Handling (payload a)) (with_logger env w)).
  rewrite has_override_eq.
  replace (tree_of env (add_line _ _ (with_logger env w))) with (tree_of env w)
    by (unfold tree_of, with_logger; by destruct (_log w)).
  set (w1 := parsed env _). cbn zeta.
  destruct (not_nullish _).
  - rewrite bind_run. destruct (log_run env w1) as [l' ->]. reflexivity.
  - rewrite bind_run. destruct (log_run env w1) as [l' ->].
    rewrite bind_run. unfold Updating_template.
    destruct (ToString_throws _); [reflexivity|].
    cbn [lift]. rewrite bind_run. reflexivity.
Qed.

Lemma write_branch_run p v a' w :
  (store env;; Store_set p v;; send a') w =
    let w1 := with_reads (S (reads (opened env w))) (opened env w) in
    match Lib.set (document_of env w) p v with
    | Ok doc' =>
        (with_sent (sent w ++ [a'])%list (after_write doc' w1), Ok ())
    | Throw e => (w1, Throw e)
    end.
Proof.
  rewrite bind_run. destruct (store_run env w) as [s ->].
  rewrite bind_run, Store_set_run, disk_opened.
  destruct (Lib.set (document_of env w) p v) as [doc'|e]; [|reflexivity].
  unfold send, modify. cbn zeta. f_equal. f_equal.
  unfold after_write, opened. destruct w as [st]; destruct st; reflexivity.
Qed.

End Handler.

(** ** Reading: [getConfig] *)

Lemma merge_objects m s : Lib.merge (JObj m) (JObj s) = JObj (Lib.mergeKeys m s).
Proof. reflexivity. Qed.

Lemma mergeKeys_lookup m s k :
  Lib.mergeKeys m s !! k =
    match m !! k, s !! k with
    | Some a, Some b => Some (Lib.merge a b)
    | Some a, None => Some a
    | None, x => x
    end.
Proof.
  unfold Lib.mergeKeys. rewrite lookup_union_with.
  by destruct (m !! k), (s !! k).
Qed.

Lemma mergeKeys_empty s : Lib.mergeKeys ∅ s = s.
Proof.
  apply map_eq. intros k. rewrite mergeKeys_lookup, lookup_empty. done.
Qed.

Lemma mergeOptions_objects s o :
  Lib.mergeOptions [Some (JObj s); Some (JObj o)] = Ok (JObj (Lib.mergeKeys s o)).
Proof.
  unfold Lib.mergeOptions. cbn [foldl isOptionObject].
  by rewrite !merge_objects, mergeKeys_empty.
Qed.

Lemma mergeKeys_level s o : level_resolved s o (Lib.mergeKeys s o).
Proof.
  intros k. rewrite mergeKeys_lookup.
  destruct (o !! k) as [ov|], (s !! k) as [sv|]; try done.
  destruct sv, ov; try done. rewrite merge_objects. eauto.
Qed.

Lemma descend_object ks v x :
  ks ≠ [] → descend ks v = Some x → ∃ m, v = JObj m.
Proof. destruct ks; [done|]. destruct v; try done. eauto. Qed.

Lemma descend_to_object ks v m' :
  descend ks v = Some (JObj m') → ∃ m, v = JObj m.
Proof.
  destruct ks; [|apply descend_object; done]. simpl. intros [= ->]. eauto.
Qed.

Lemma mergeKeys_descend ks : ∀ s o s' o',
  descend ks (JObj s) = Some (JObj s') →
  descend ks (JObj o) = Some (JObj o') →
  descend ks (JObj (Lib.mergeKeys s o)) = Some (JObj (Lib.mergeKeys s' o')).
Proof.
  induction ks as [|k ks IH]; intros s o s' o' Hs Ho.
  - simpl in *. by simplify_eq.
  - simpl in *. rewrite mergeKeys_lookup.
    destruct (s !! k) as [sv|]; [|done]. destruct (o !! k) as [ov|]; [|done].
    simpl in *.
    destruct (descend_to_object _ _ _ Hs) as [ms ->].
    destruct (descend_to_object _ _ _ Ho) as [mo ->].
    rewrite merge_objects. by apply IH.
Qed.

Lemma mergeKeys_resolved s o : resolved_at_every_depth s o (Lib.mergeKeys s o).
Proof.
  intros ks s' o' Hs Ho. exists (Lib.mergeKeys s' o'). split.
  - by apply mergeKeys_descend.
  - apply mergeKeys_level.
Qed.

Section Reading.
Context (env : Env).
(** C1: where the stored document and the override tree both hold an
    object at the path, [getConfig] returns an object that, at every
    depth where both still hold objects, keeps the members only the
    stored object has and takes the override's member for every key
    the override has (merged in turn when both members are objects). *)
Theorem getConfig_merges_objects w p s o :
  eval (store env;; Store_get p) w = Ok (Some (JObj s)) →
  eval (getOverrides env p) w = Ok (Some (JObj o)) →
  ∃ r, eval (getConfig env p) w = Ok (Some (JObj r))
       ∧ resolved_at_every_depth s o r.
Proof.
  rewrite stored_eval. unfold eval at 1. rewrite getOverrides_run. cbn [snd].
  intros [= Hs] [= Ho]. exists (Lib.mergeKeys s o). split.
  - rewrite getConfig_eval, Hs, Ho. unfold resolved. cbn [not_nullish is_object_type].
    by rewrite mergeOptions_objects.
  - apply mergeKeys_resolved.
Qed.

(** C5: when neither the path nor any of its ancestors has an override
    value, [getConfig] returns what [store().get] returns. *)
Theorem getConfig_without_override w p :
  forallb (λ q, negb (has_override env w q)) (p :: ancestors p) = true →
  eval (getConfig env (Some p)) w = eval (store env;; Store_get (Some p)) w.
Proof.
  intros H. simpl in H. apply andb_true_iff in H as [H _].
  apply negb_true_iff in H. rewrite has_override_eq in H.
  rewrite getConfig_eval, stored_eval. unfold resolved. by rewrite H.
Qed.

End Reading.

(** ** The update handler *)

Section HandlerProperties.
Context (env : Env).

(** C10: an action whose type is not [config:UPDATE] leaves the world
    as it is, whatever [dispatch] is: no module variable is
    initialised, the store is neither read nor written, nothing is
    dispatched, nothing is logged. *)
Theorem other_actions_are_ignored dispatch a w :
  String.eqb (type a) "config:UPDATE" = false →
  registerConfig env dispatch a w = (w, Ok ()).
Proof.
  intros Ht. unfold registerConfig, handleIncomingAction. by rewrite Ht.
Qed.

Lemma overridden_branch dispatch a w :
  type a = "config:UPDATE" →
  has_override env w (path (payload a)) = true →
  let w' := exec (registerConfig env dispatch a) w in
  eval (registerConfig env dispatch a) w = Ok ()
  ∧ disk w' = disk w ∧ _store w' = _store w ∧ called w' = called w
  ∧ sent w' = sent w ∧ opens w' = opens w ∧ reads w' = reads w
  ∧ logged w' =
      (logged w ++
        [ {| line_level := debug; line_message := Handling (payload a) |};
          {| line_level := info;
             line_message := InOverrides (path (payload a)) |} ])%list.
Proof.
  intros Ht Hover.
  unfold exec, eval. rewrite (handler_run env dispatch a w Ht), Hover.
  unfold add_line, with_logger, parsed.
  destruct w as [st ov lg]; destruct ov, lg; simpl;
    rewrite <- ?app_assoc; done.
Qed.

(** C2: a [config:UPDATE] for a path whose override value is neither
    [undefined] nor [null] returns normally, adds the two log lines and
    nothing else: the document file, the store and its listeners, the
    callbacks run and the actions sent stay as they were, for every
    [dispatch]; the store is not even opened or read. *)
Theorem update_of_overridden_path_is_dropped dispatch a w :
  String.eqb (type a) "config:UPDATE" = true →
  has_override env w (path (payload a)) = true →
  let w' := exec (registerConfig env dispatch a) w in
  eval (registerConfig env dispatch a) w = Ok ()
  ∧ disk w' = disk w ∧ _store w' = _store w ∧ called w' = called w
  ∧ sent w' = sent w ∧ opens w' = opens w ∧ reads w' = reads w
  ∧ logged w' =
      (logged w ++
        [ {| line_level := debug; line_message := Handling (payload a) |};
          {| line_level := info;
             line_message := InOverrides (path (payload a)) |} ])%list.
Proof.
  intros Ht Hover. apply String.eqb_eq in Ht. by apply overridden_branch.
Qed.

(** C6: a [config:UPDATE] is rejected exactly when the override tree
    holds a value that is neither [undefined] nor [null] at the very
    path of the request. *)
Theorem rejected_iff_override_at_path w a :
  String.eqb (type a) "config:UPDATE" = true →
  rejected env w a ↔ has_override env w (path (payload a)) = true.
Proof.
  intros Ht. split.
  - intros (Hl & _). apply String.eqb_eq in Ht.
    destruct (has_override env w (path (payload a))) eqn:Hover; [done|].
    exfalso. revert Hl. unfold exec.
    rewrite (handler_run env send a w Ht), Hover. cbn zeta.
    destruct (ToString_throws _).
    { unfold add_line, with_logger, parsed;
        destruct w as [st ov lg]; destruct st, ov, lg; simpl;
        intros Hl; apply app_inv_head in Hl; discriminate. }
    rewrite write_branch_run. cbn zeta.
    destruct (Lib.set _ _ _) as [doc'|e];
      unfold after_write, opened, add_line, with_logger, parsed;
      destruct w as [st ov lg]; destruct st, ov, lg; simpl;
      rewrite <- ?app_assoc; intros Hl; apply app_inv_head in Hl; discriminate.
  - intros Hover. apply String.eqb_eq in Ht.
    destruct (overridden_branch send a w Ht Hover)
      as (_ & Hd & Hs & Hc & Hsent & _ & _ & Hl).
    by repeat split.
Qed.


End HandlerProperties.

(** C10 at an action of another module. *)
Lemma other_actions_are_ignored_witness :
  registerConfig (sample_env no_flags) send
    {| type := "shell:CHECK_UPDATE";
       payload := {| path := "ui.width"; value := JNum 800 |} |}
    (boot ∅)
  = (boot ∅, Ok ()).
Proof. apply other_actions_are_ignored. reflexivity. Defined.

(** C2 at the override [--log.level.console=debug] and a request to set
    [log.level.console] to [silly]. *)
Lemma update_of_overridden_path_is_dropped_witness :
  let a := update "log.level.console" (JStr "silly") in
  let w := boot ∅ in
  let w' := exec (registerConfig (sample_env console_debug) send a) w in
  disk w' = disk w ∧ sent w' = sent w.
Proof.
  intros a w w'.
  destruct (update_of_overridden_path_is_dropped
              (sample_env console_debug) send a w) as (_ & Hd & _ & _ & Hs & _).
  - reflexivity.
  - vm_compute. reflexivity.
  - split; [exact Hd | exact Hs].
Defined.

(** ** Lazy initialisation *)

Lemma preserves_bind {A B} I (m : M A) (k : A → M B) :
  preserves I m → (∀ a, preserves I (k a)) → preserves I (m ≫= k).
Proof.
  intros Hm Hk w Hw. unfold exec. rewrite bind_run.
  specialize (Hm w Hw). unfold exec in Hm.
  destruct (m w) as [w' [a|e]]; [by apply Hk|done].
Qed.

Lemma preserves_ret {A} I (a : A) : preserves I (mret a).
Proof. by intros w. Qed.

Lemma preserves_throw {A} I e : preserves I (@throw A e).
Proof. by intros w. Qed.

Lemma preserves_gets {A} I (f : World → A) : preserves I (gets f).
Proof. by intros w. Qed.

Lemma preserves_modify I f : (∀ w, I w → I (f w)) → preserves I (modify f).
Proof. intros H w. apply H. Qed.

Lemma preserves_lift {A} I (r : result A) : preserves I (lift r).
Proof. destruct r; [apply preserves_ret|apply preserves_throw]. Qed.

Section Once.
Context (env : Env).

Ltac frame := apply preserves_modify; intros [] ?; assumption.
Ltac step :=
  first [ apply preserves_bind; [|intros ?]
        | apply preserves_ret | apply preserves_throw | apply preserves_gets
        | apply preserves_lift | frame ].

Lemma once_store : preserves (made_once env) (store env).
Proof.
  intros w Hw. unfold exec. destruct (store_run env w) as [s ->].
  revert Hw. unfold opened, made_once.
  destruct w as [st ov]; destruct st, ov; simpl; intros [? ?]; split; congruence.
Qed.

Lemma once_overrides : preserves (made_once env) (overrides env).
Proof.
  intros w Hw. unfold exec. rewrite overrides_run.
  revert Hw. unfold parsed, made_once.
  destruct w as [st ov]; destruct st, ov; simpl; intros [? ?]; split;
    first [done | split; congruence | congruence].
Qed.

Lemma once_log : preserves (made_once env) (log env).
Proof.
  intros w Hw. unfold exec. destruct (log_run env w) as [l ->].
  revert Hw. unfold with_logger. by destruct w as [st ov lg]; destruct lg.
Qed.

Lemma once_Store_store : preserves (made_once env) Store_store.
Proof. unfold Store_store. repeat step. Qed.

Lemma once_Store_get key : preserves (made_once env) (Store_get key).
Proof. unfold Store_get. step; [apply once_Store_store|step]. Qed.

Lemma once_Store_set key v : preserves (made_once env) (Store_set key v).
Proof.
  intros w Hw. unfold exec. rewrite Store_set_run.
  revert Hw. unfold after_write, made_once.
  destruct (Lib.set _ _ _); destruct w as [st ov]; destruct st, ov; simpl; done.
Qed.

Lemma once_Store_onDidChange key h :
  preserves (made_once env) (Store_onDidChange key h).
Proof.
  unfold Store_onDidChange. step; [apply once_Store_get|].
  intros w Hw. unfold exec. rewrite bind_run. unfold gets.
  revert Hw. unfold made_once.
  destruct w as [st ov]; destruct st, ov; simpl; done.
Qed.

Lemma once_Logger_log lvl msg : preserves (made_once env) (Logger_log lvl msg).
Proof. unfold Logger_log. step. Qed.

Lemma once_send a : preserves (made_once env) (send a).
Proof. unfold send. step. Qed.

Lemma once_request r : ∀ w, made_once env w → made_once env (request env r w).
Proof.
  destruct r; simpl.
  - apply once_store.
  - apply once_overrides.
  - apply once_log.
  - unfold registerConfig, handleIncomingAction.
    destruct (String.eqb _ _); [|apply preserves_ret].
    step; [apply once_log|]. step; [apply once_Logger_log|].
    step; [apply once_overrides|].
    destruct (not_nullish _).
    + step; [apply once_log|apply once_Logger_log].
    + step; [apply once_log|]. step; [step|]. step; [apply once_Logger_log|].
      step; [apply once_store|]. step; [apply once_Store_set|apply once_send].
  - unfold getStore. step; [apply once_store|apply once_Store_store].
  - unfold getOverrides. step; [apply once_overrides|step].
  - unfold getConfig. step; [apply once_store|]. step; [apply once_Store_get|].
    step; [apply once_overrides|].
    destruct (not_nullish _); [|step]. destruct (is_object_type _); [|step].
    step; step.
  - unfold getFullConfig, getConfig. step; [apply once_store|]. step; [apply once_Store_get|].
    step; [apply once_overrides|].
    destruct (not_nullish _); [|step]. destruct (is_object_type _); [|step].
    step; step.
  - unfold handleConfigChange. step; [apply once_store|apply once_Store_onDidChange].
Qed.

Lemma once_requests rs : ∀ w, made_once env w → made_once env (requests env rs w).
Proof.
  induction rs as [|r rs IH]; intros w Hw; [done|].
  simpl. apply IH. by apply once_request.
Qed.

Lemma once_boot file : made_once env (boot file).
Proof. by split. Qed.

(** C7: after any sequence of calls into the module, from the start of
    the process, the argument parser has run at most once and the
    [Store] constructor at most once; [overrides()] returns the
    parser's tree, and a call of an accessor whose value exists
    changes nothing. *)
Theorem lazy_values_are_made_once file rs :
  let w := requests env rs (boot file) in
  (parses w ≤ 1)%nat ∧ (opens w ≤ 1)%nat
  ∧ eval (overrides env) w = Ok (yargsParser env (argv env) PARSE_ARGS_OPTS)
  ∧ parses (exec (overrides env) w) = 1%nat
  ∧ opens (exec (store env) w) = 1%nat
  ∧ (parses w = 1%nat → exec (overrides env) w = w)
  ∧ (opens w = 1%nat → exec (store env) w = w).
Proof.
  intros w. assert (made_once env w) as Hw by apply once_requests, once_boot.
  clearbody w. revert Hw. unfold eval, exec. rewrite overrides_run.
  destruct (store_run env w) as [s ->]. cbn [fst snd].
  unfold made_once, tree_of, parsed, opened.
  destruct w as [st ov ? ? ? ? ? ps os ?]; destruct st, ov; simpl;
    intros [Ho Hs]; repeat split;
    first [done | lia | by destruct Ho as [_ ->]].
Qed.

End Once.

(** ** Writing twice *)

Lemma emit_change_in_step doc subs : in_step doc (Lib.emit_change doc subs).1.
Proof.
  induction subs as [|s subs IH]; [constructor|].
  simpl. unfold Lib.onChange. 
  destruct (decide _) as [E|E]; destruct (Lib.emit_change doc subs) as [ls cs];
    simpl in *; constructor; done.
Qed.

Lemma emit_change_quiet doc subs :
  in_step doc subs → Lib.emit_change doc subs = (subs, []).
Proof.
  induction 1 as [|s subs Hs _ IH]; [done|].
  simpl. unfold Lib.onChange. rewrite decide_True by done. by rewrite IH.
Qed.

Lemma set_segments_container segs v o o' :
  isObj (Some o) = true → Lib.set_segments segs v o = Ok o' →
  isObj (Some o') = true.
Proof.
  destruct segs as [|k rest]; simpl; [by intros ? [= <-]|].
  destruct o as [| | | |l|m]; try done; intros _.
  - destruct (String.eqb k "length"); [done|].
    destruct (array_index k); [|by intros [= <-]].
    destruct rest; [by intros [= <-]|].
    destruct (Lib.set_segments _ _ _); [by intros [= <-]|done].
  - destruct rest; [by intros [= <-]|].
    destruct (Lib.set_segments _ _ _); [by intros [= <-]|done].
Qed.

Lemma child_or_empty_container c :
  isObj (Some c) = true → Lib.child_or_empty (Some c) = c.
Proof. by destruct c. Qed.

Lemma child_or_empty_isObj c : isObj (Some (Lib.child_or_empty c)) = true.
Proof. by destruct c as [[]|]. Qed.

Lemma array_put_again l i c :
  Lib.array_put (Lib.array_put l i c) i c = Lib.array_put l i c.
Proof.
  pose proof (array_put_lookup l i c) as H.
  unfold Lib.array_put at 1.
  rewrite (proj2 (Nat.ltb_lt _ _)) by (by eapply lookup_lt_Some).
  by apply list_insert_id.
Qed.

Lemma set_segments_object_last k v m :
  Lib.set_segments [k] v (JObj m) = Ok (JObj (<[k := v]> m)).
Proof. reflexivity. Qed.

Lemma set_segments_object_step k k' rest v m :
  Lib.set_segments (k :: k' :: rest) v (JObj m) =
    match Lib.set_segments (k' :: rest) v (Lib.child_or_empty (m !! k)) with
    | Ok c => Ok (JObj (<[k := c]> m))
    | Throw e => Throw e
    end.
Proof. reflexivity. Qed.

Lemma set_segments_array_last k i v l :
  array_index k = Some i →
  Lib.set_segments [k] v (JArr l) = Ok (JArr (Lib.array_put l i v)).
Proof.
  intros Hi. cbn [Lib.set_segments].
  by rewrite (array_index_not_length _ _ Hi), Hi.
Qed.

Lemma set_segments_array_step k i k' rest v l :
  array_index k = Some i →
  Lib.set_segments (k :: k' :: rest) v (JArr l) =
    match Lib.set_segments (k' :: rest) v (Lib.child_or_empty (l !! i)) with
    | Ok c => Ok (JArr (Lib.array_put l i c))
    | Throw e => Throw e
    end.
Proof.
  intros Hi. change (Lib.set_segments (k :: k' :: rest) v (JArr l)) with
    (if String.eqb k "length" then Throw (RangeError "Invalid array length")
     else match array_index k with
          | Some i =>
              match Lib.set_segments (k' :: rest) v (Lib.child_or_empty (l !! i)) with
              | Ok c => Ok (JArr (Lib.array_put l i c))
              | Throw e => Throw e
              end
          | None => Ok (JArr l)
          end).
  by rewrite (array_index_not_length _ _ Hi), Hi.
Qed.

Lemma set_segments_array_other k rest v l o' :
  array_index k = None →
  Lib.set_segments (k :: rest) v (JArr l) = Ok o' → o' = JArr l.
Proof.
  intros Hi. cbn [Lib.set_segments]. rewrite Hi.
  destruct (String.eqb k "length"); [done|]. by intros [= <-].
Qed.

Lemma set_segments_again segs v : ∀ o o',
  isObj (Some o) = true →
  Lib.set_segments segs v o = Ok o' → Lib.set_segments segs v o' = Ok o'.
Proof.
  induction segs as [|k rest IH]; intros o o' Hobj Hset; [done|].
  destruct o as [| | | |l|m]; try done.
  - destruct (array_index k) as [i|] eqn:Hi.
    + destruct rest as [|k' rest'].
      * rewrite (set_segments_array_last _ _ _ _ Hi) in Hset.
        injection Hset as <-.
        by rewrite (set_segments_array_last _ _ _ _ Hi), array_put_again.
      * rewrite (set_segments_array_step _ _ _ _ _ _ Hi) in Hset.
        destruct (Lib.set_segments (k' :: rest') v _) as [c|] eqn:Hc; [|done].
        injection Hset as <-.
        rewrite (set_segments_array_step _ _ _ _ _ _ Hi), array_put_lookup.
        pose proof (set_segments_container _ _ _ _ (child_or_empty_isObj _) Hc) as Hcc.
        rewrite (child_or_empty_container _ Hcc).
        rewrite (IH _ _ (child_or_empty_isObj _) Hc). by rewrite array_put_again.
    + by rewrite (set_segments_array_other _ _ _ _ _ Hi Hset) in Hset |- *.
  - destruct rest as [|k' rest'].
    + rewrite set_segments_object_last in Hset. injection Hset as <-.
      by rewrite set_segments_object_last, insert_insert_eq.
    + rewrite set_segments_object_step in Hset.
      destruct (Lib.set_segments (k' :: rest') v _) as [c|] eqn:Hc; [|done].
      injection Hset as <-.
      rewrite set_segments_object_step, lookup_insert_eq.
      pose proof (set_segments_container _ _ _ _ (child_or_empty_isObj _) Hc) as Hcc.
      rewrite (child_or_empty_container _ Hcc).
      rewrite (IH _ _ (child_or_empty_isObj _) Hc). by rewrite insert_insert_eq.
Qed.

Lemma set_again doc p v doc' :
  Lib.set doc p v = Ok doc' → Lib.set doc' p v = Ok doc'.
Proof.
  unfold Lib.set.
  destruct (Lib.set_segments _ v (JObj doc)) as [o|] eqn:Hs; [|done].
  pose proof (set_segments_container _ _ (JObj doc) _ eq_refl Hs) as Hc.
  pose proof (set_segments_again _ _ (JObj doc) _ eq_refl Hs) as Ha.
  destruct o; try done.
  - (* an array cannot come out of an object *)
    exfalso. destruct (Lib.getPathSegments p) as [|k rest]; [done|].
    cbn [Lib.set_segments] in Hs. destruct rest; [done|].
    by destruct (Lib.set_segments _ _ _).
  - intros [= <-]. by rewrite Ha.
Qed.

Section Writing.
Context (env : Env).

(** C8: a second [set] of the same value at the same path ends as the
    first did, leaves the document as the first left it, and runs no
    change callback: a listener is called only when the value at its
    key is no longer the one it saw last. *)
Theorem second_set_changes_nothing w p v :
  let set := (store env;; Store_set p v) in
  let w1 := exec set w in
  let w2 := exec set w1 in
  eval set w1 = eval set w
  ∧ disk w2 = disk w1 ∧ _store w2 = _store w1 ∧ called w2 = called w1.
Proof.
  intros set w1 w2. unfold w2, w1, set, exec, eval.
  rewrite !bind_run. destruct (store_run env w) as [s ->].
  rewrite Store_set_run, disk_opened.
  destruct (Lib.set (document_of env w) p v) as [doc'|e] eqn:Hset; cbn [fst snd].
  - set (w' := after_write doc' _).
    destruct (store_run env w') as [s' ->]. rewrite Store_set_run.
    assert (∃ ls, _store w' = Some {| listeners := ls |}
                  ∧ in_step doc' ls ∧ disk w' = doc')
      as (ls & Hst & Hin & Hd).
    { unfold w', after_write, opened.
      destruct w as [st]; destruct st as [[ls0]|]; simpl;
        eexists; (split; [reflexivity|]); (split; [|reflexivity]).
      - apply emit_change_in_step.
      - constructor. }
    assert (opened env w' = w') as -> by (unfold opened; by rewrite Hst).
    clearbody w'. destruct w' as [st' ov' lg' dk']. simpl in Hst, Hd.
    subst st' dk'.
    cbn [disk with_reads]. rewrite (set_again _ _ _ _ Hset).
    unfold after_write. cbn [_store with_reads listeners].
    rewrite (emit_change_quiet _ _ Hin). simpl. by rewrite app_nil_r.
  - set (w' := with_reads _ _).
    destruct (store_run env w') as [s' ->]. rewrite Store_set_run.
    assert (opened env w' = w') as ->.
    { unfold w', opened. destruct w as [st]; by destruct st. }
    assert (disk w' = document_of env w) as Hd.
    { unfold w'. cbn [disk with_reads]. apply disk_opened. }
    rewrite Hd, Hset. cbn [fst snd]. by rewrite <- Hd.
Qed.
End Writing.

(** ** The full document *)

Lemma split_dot_no_dot k : no_dot k = true → split_dot k = [k].
Proof.
  induction k as [|c k IH]; [done|]. simpl.
  intros [Hc Hk]%andb_true_iff. apply negb_true_iff in Hc. rewrite Hc.
  by rewrite (IH Hk).
Qed.

Lemma toPath_plain k : plain_key k = true → Lib.toPath (Some k) = [k].
Proof.
  intros [Hne Hk]%andb_true_iff. unfold Lib.toPath.
  apply negb_true_iff in Hne. rewrite Hne. by apply split_dot_no_dot.
Qed.

Lemma getPathSegments_plain k : plain_key k = true → Lib.getPathSegments k = [k].
Proof.
  intros [_ Hk]%andb_true_iff. unfold Lib.getPathSegments.
  by rewrite (split_dot_no_dot _ Hk).
Qed.

Lemma get_plain doc k : plain_key k = true → Lib.get (JObj doc) (Some k) = doc !! k.
Proof.
  intros Hk. unfold Lib.get. cbn [isObj is_object_type].
  rewrite (getPathSegments_plain _ Hk). simpl.
  by destruct (doc !! k) as [[]|].
Qed.

Lemma getIn_plain tree k :
  plain_key k = true → Lib.getIn (Some (JObj tree)) (Some k) = tree !! k.
Proof. intros Hk. unfold Lib.getIn. by rewrite (toPath_plain _ Hk). Qed.

Lemma resolved_member doc tree k x :
  resolved (doc !! k) (tree !! k) = Ok x → tree !! k ≠ Some JNull →
  Lib.mergeKeys doc tree !! k = x.
Proof.
  rewrite mergeKeys_lookup. unfold resolved.
  destruct (tree !! k) as [ov|] eqn:Ho; cbn [not_nullish].
  2:{ intros [= <-] _. by destruct (doc !! k). }
  destruct (doc !! k) as [sv|] eqn:Hs.
  2:{ destruct ov; try done; by intros [= <-]. }
  intros H Hnull.
  destruct sv as [| | | |ls|ms].
  1-4: destruct ov; try done; by injection H as <-.
  - by destruct ov.
  - destruct ov as [| | | | |mo]; try done.
    rewrite mergeOptions_objects in H. by injection H as <-.
Qed.

Section FullDocument.
Context (env : Env).

(** C9: [getFullConfig()] is [getConfig()] without path; it returns the
    stored document merged with the whole override tree, and at a
    top-level key (not empty, without dot) it holds what [getConfig]
    of that key returns, when that call returns and the override at
    the key is not [null]. *)
Theorem getFullConfig_is_the_merged_document w :
  getFullConfig env = getConfig env None
  ∧ eval (getFullConfig env) w
    = Ok (Some (JObj (Lib.mergeKeys (document_of env w) (tree_of env w))))
  ∧ ∀ k x full,
      plain_key k = true →
      eval (getFullConfig env) w = Ok (Some (JObj full)) →
      eval (getConfig env (Some k)) w = Ok x →
      override_is_null env w k = false →
      full !! k = x.
Proof.
  assert (eval (getFullConfig env) w
    = Ok (Some (JObj (Lib.mergeKeys (document_of env w) (tree_of env w))))) as Hfull.
  { unfold getFullConfig. rewrite getConfig_eval.
    unfold resolved, Lib.get, Lib.getIn, Lib.toPath.
    cbn [Lib.getter not_nullish is_object_type].
    by rewrite mergeOptions_objects. }
  split; [done|]. split; [done|].
  intros k x full Hk. rewrite Hfull. intros [= <-].
  rewrite getConfig_eval, (get_plain _ _ Hk), (getIn_plain _ _ Hk).
  unfold override_is_null, eval.
  rewrite getOverrides_run, (getIn_plain _ _ Hk). cbn [snd].
  intros Hx Hnull. apply resolved_member; [done|].
  intros E. by rewrite E in Hnull.
Qed.
End FullDocument.

(** The empty string is not the root for the store: [getConfig('')]
    reads nothing from the document and returns the override tree
    alone, which is not the full document. *)
Example getConfig_of_the_empty_string :
  let env := sample_env console_debug in
  eval (getConfig env (Some EmptyString)) (boot ∅) = Ok (Some (JObj console_debug))
  ∧ eval (getConfig env (Some EmptyString)) (boot ∅)
    ≠ eval (getFullConfig env) (boot ∅).
Proof.
  intros env. split; [vm_compute; reflexivity|].
  intros H. vm_compute in H. discriminate.
Qed.

(** Counterexample to C9 as stated: with no flag at all the override
    tree still holds the positional arguments [_], which the full
    document takes over and no default key accounts for. *)
Lemma full_config_holds_more_than_the_default_keys :
  let env := sample_env no_flags in
  let w := boot ∅ in
  ∃ full parts,
    eval (getFullConfig env) w = Ok (Some (JObj full))
    ∧ resolve_each_default_key env w = Ok parts
    ∧ full !! "_" = Some (JArr []) ∧ parts !! "_" = None
    ∧ full ≠ parts.
Proof.
  intros env w.
  eexists _, _. split; [vm_compute; reflexivity|].
  split; [vm_compute; reflexivity|].
  split; [vm_compute; reflexivity|]. split; [vm_compute; reflexivity|].
  intros H. apply (f_equal (λ m : obj, m !! "_")) in H. vm_compute in H. discriminate.
Qed.

(** ** Scalar overrides *)

Section ScalarOverrides.
Context (env : Env).

(** A scalar override replaces a stored value that is not of object
    type: a scalar, [null], or nothing. *)
Lemma scalar_override_replaces_scalar_or_absent w p ov stored :
  eval (getOverrides env p) w = Ok (Some ov) →
  is_scalar ov = true →
  eval (store env;; Store_get p) w = Ok stored →
  is_object_type stored = false →
  eval (getConfig env p) w = Ok (Some ov).
Proof.
  rewrite stored_eval, getConfig_eval. unfold eval.
  rewrite getOverrides_run. cbn [snd].
  intros [= ->] Hov [= ->] Hst. unfold resolved. rewrite Hst.
  by destruct ov.
Qed.

(** Over a stored object or array, the same override reaches
    [mergeOptions], which refuses it. *)
Lemma scalar_override_on_object_type_throws w p ov stored :
  eval (getOverrides env p) w = Ok (Some ov) →
  is_scalar ov = true →
  eval (store env;; Store_get p) w = Ok stored →
  is_object_type stored = true →
  ∃ e, eval (getConfig env p) w = Throw e.
Proof.
  rewrite stored_eval, getConfig_eval. unfold eval.
  rewrite getOverrides_run. cbn [snd].
  intros [= ->] Hov [= ->] Hst. unfold resolved. rewrite Hst.
  destruct ov; try done; destruct stored as [[]|]; try done; simpl; eauto.
Qed.

End ScalarOverrides.

(** C4, at [--log=verbose] over the default document: the override at
    [log] is the string, the stored value is the object of log levels,
    and [getConfig('log')] throws instead of returning the string. *)
Lemma scalar_override_on_stored_object_throws :
  let env := sample_env log_verbose in
  let w := boot ∅ in
  eval (getOverrides env (Some "log")) w = Ok (Some (JStr "verbose"))
  ∧ eval (store env;; Store_get (Some "log")) w
    = Ok (Some (object [("level",
              object [("file", JStr "debug"); ("console", JStr "info")])]))
  ∧ eval (getConfig env (Some "log")) w
    = Throw (TypeError "not an Option Object").
Proof. repeat split; vm_compute; reflexivity. Qed.

(** ** The properties at sample inputs *)

(** C1 at [log.level], with the override [--log.level.console=debug]
    over the default document. *)
Lemma getConfig_merges_objects_witness :
  ∃ r,
    eval (getConfig (sample_env console_debug) (Some "log.level")) (boot ∅)
    = Ok (Some (JObj r))
    ∧ resolved_at_every_depth
        (list_to_map [("file", JStr "debug"); ("console", JStr "info")])
        (list_to_map [("console", JStr "debug")]) r.
Proof.
  apply getConfig_merges_objects; vm_compute; reflexivity.
Defined.

(** C5 at [ui.width], which the override [--log.level.console=debug]
    does not touch. *)
Lemma getConfig_without_override_witness :
  eval (getConfig (sample_env console_debug) (Some "ui.width")) (boot ∅)
  = eval (store (sample_env console_debug);; Store_get (Some "ui.width"))
         (boot ∅).
Proof. apply getConfig_without_override. vm_compute. reflexivity. Defined.

(** C6 at the request to set [log.level.console], which has an
    override. *)
Lemma rejected_iff_override_at_path_witness :
  rejected (sample_env console_debug) (boot ∅)
    (update "log.level.console" (JStr "silly"))
  ↔ has_override (sample_env console_debug) (boot ∅) "log.level.console"
    = true.
Proof.
  apply (rejected_iff_override_at_path (sample_env console_debug) (boot ∅)
           (update "log.level.console" (JStr "silly"))).
  reflexivity.
Defined.

(** Counterexample to C6 as stated: [--ui.url=...] puts a string at
    [ui.url], an ancestor of [ui.url.path]; the write to [ui.url.path]
    is applied and broadcast all the same. *)
Lemma scalar_override_at_ancestor_does_not_reject :
  let env := sample_env url_string in
  let w := boot ∅ in
  let a := update "ui.url.path" (JStr "index.html") in
  eval (getOverrides env (Some "ui.url")) w
  = Ok (Some (JStr "http://localhost:8090"))
  ∧ covered_by_override env w "ui.url.path" = true
  ∧ ¬ rejected env w a
  ∧ sent (exec (registerConfig env send a) w)
    = [{| type := "config:SET"; payload := payload a |}]
  ∧ eval (store env;; Store_get (Some "ui.url.path"))
         (exec (registerConfig env send a) w)
    = Ok (Some (JStr "index.html")).
Proof.
  intros env w a.
  split; [vm_compute; reflexivity|]. split; [vm_compute; reflexivity|].
  split; [|split; vm_compute; reflexivity].
  intros (Hl & _). vm_compute in Hl. discriminate.
Qed.



(** Counterexample to C8 as stated: after [handleConfigChange] for
    [ui.width], the first write of 800 runs the callback with the new
    and the old value; the second write of 800 runs nothing. *)
Lemma second_set_runs_no_callback :
  let env := sample_env no_flags in
  let w0 := exec (handleConfigChange env "ui.width" 1%nat) (boot ∅) in
  let set := (store env;; Store_set "ui.width" (JNum 800)) in
  let w1 := exec set w0 in
  let w2 := exec set w1 in
  called w0 = []
  ∧ called w1 = [{| Lib.call_callback := 1%nat;
                    Lib.call_new := Some (JNum 800);
                    Lib.call_old := Some (JNum 1024) |}]
  ∧ called w2 = called w1
  ∧ disk w2 = disk w1.
Proof. repeat split; vm_compute; reflexivity. Qed.

(** C9 at the key [log], with the override
    [--log.level.console=debug] over the default document. *)
Lemma getFullConfig_is_the_merged_document_witness :
  ∃ full,
    eval (getFullConfig (sample_env console_debug)) (boot ∅)
    = Ok (Some (JObj full))
    ∧ full !! "log"
      = Some (object [("level",
                object [("file", JStr "debug"); ("console", JStr "debug")])]).
Proof.
  destruct (getFullConfig_is_the_merged_document
              (sample_env console_debug) (boot ∅)) as (_ & Hfull & Hkey).
  eexists. split; [exact Hfull|].
  apply Hkey.
  - reflexivity.
  - exact Hfull.
  - vm_compute. reflexivity.
  - vm_compute. reflexivity.
Defined.

(** * More properties of the module *)

(** ** The read functions *)

Section ReadFunctions.
Context (env : Env).

Lemma getConfig_run p w :
  exec (getConfig env p) w = after_read env w.
Proof.
  unfold exec, getConfig, after_read. rewrite bind_run.
  destruct (store_run env w) as [s ->]. rewrite bind_run, Store_get_run.
  rewrite bind_run, overrides_run.
  destruct (not_nullish _); [|reflexivity].
  destruct (is_object_type _); [|reflexivity].
  rewrite bind_run. unfold lift. by destruct (Lib.mergeOptions _).
Qed.

Lemma getStore_run w :
  getStore env w =
    (with_reads (S (reads (opened env w))) (opened env w),
     Ok (document_of env w)).
Proof.
  unfold getStore. rewrite bind_run. destruct (store_run env w) as [s ->].
  unfold Store_store. rewrite bind_run. unfold modify, gets. cbn [disk with_reads].
  by rewrite disk_opened.
Qed.

Lemma document_of_opened w : document_of env (opened env w) = document_of env w.
Proof. unfold document_of, opened. by destruct w as [st]; destruct st. Qed.

Lemma document_of_parsed w : document_of env (parsed env w) = document_of env w.
Proof. unfold document_of, parsed. by destruct w as [st ov]; destruct ov. Qed.

Lemma tree_of_parsed w : tree_of env (parsed env w) = tree_of env w.
Proof. unfold tree_of, parsed. by destruct w as [st ov]; destruct ov. Qed.

Lemma document_of_with_logger w :
  document_of env (with_logger env w) = document_of env w.
Proof. unfold document_of, with_logger. by destruct w as [st ov lg]; destruct lg. Qed.

Lemma tree_of_with_logger w : tree_of env (with_logger env w) = tree_of env w.
Proof. unfold tree_of, with_logger. by destruct w as [st ov lg]; destruct lg. Qed.

Lemma document_of_after_read w :
  document_of env (after_read env w) = document_of env w.
Proof.
  unfold after_read. rewrite document_of_parsed.
  unfold document_of, opened. by destruct w as [st]; destruct st.
Qed.

Lemma tree_of_after_read w : tree_of env (after_read env w) = tree_of env w.
Proof.
  unfold after_read. rewrite tree_of_parsed.
  unfold tree_of, opened. by destruct w as [st]; destruct st.
Qed.

(** X1: [getConfig] only reads.  Whatever it returns or throws, it sends
    nothing, logs nothing, runs no callback and keeps the listeners;
    the document file afterwards is the document [store()] gives
    access to (the file itself once the store exists). *)
Theorem getConfig_only_reads p w :
  let w' := exec (getConfig env p) w in
  disk w' = document_of env w
  ∧ listeners_of w' = listeners_of w
  ∧ sent w' = sent w ∧ logged w' = logged w ∧ called w' = called w
  ∧ _log w' = _log w.
Proof.
  cbn zeta. rewrite getConfig_run. unfold after_read, parsed, opened, document_of, listeners_of.
  destruct w as [st ov]; destruct st, ov; done.
Qed.

(** What a read request leaves of the two layers. *)
Lemma read_keeps_layers r w :
  is_read r = true →
  document_of env (request env r w) = document_of env w
  ∧ tree_of env (request env r w) = tree_of env w.
Proof.
  destruct r; try done; intros _; cbn [request].
  - unfold exec. destruct (store_run env w) as [s ->].
    split; [apply document_of_opened|apply tree_of_opened].
  - unfold exec. rewrite overrides_run.
    split; [apply document_of_parsed|apply tree_of_parsed].
  - unfold exec. destruct (log_run env w) as [l ->].
    split; [apply document_of_with_logger|apply tree_of_with_logger].
  - unfold exec. rewrite getStore_run. cbn [fst].
    unfold document_of, tree_of, opened. by destruct w as [st]; destruct st.
  - unfold exec. rewrite getOverrides_run.
    split; [apply document_of_parsed|apply tree_of_parsed].
  - rewrite getConfig_run.
    split; [apply document_of_after_read|apply tree_of_after_read].
  - unfold getFullConfig. rewrite getConfig_run.
    split; [apply document_of_after_read|apply tree_of_after_read].
Qed.

Lemma reads_keep_layers rs : ∀ w,
  forallb is_read rs = true →
  document_of env (requests env rs w) = document_of env w
  ∧ tree_of env (requests env rs w) = tree_of env w.
Proof.
  induction rs as [|r rs IH]; intros w; [done|].
  cbn [forallb]. intros [Hr Hrs]%andb_true_iff.
  change (requests env (r :: rs) w) with (requests env rs (request env r w)).
  destruct (IH (request env r w) Hrs) as [-> ->].
  by apply read_keeps_layers.
Qed.

Lemma getStore_eval w : eval (getStore env) w = Ok (document_of env w).
Proof. unfold eval. by rewrite getStore_run. Qed.

Lemma getOverrides_eval p w :
  eval (getOverrides env p) w = Ok (Lib.getIn (Some (JObj (tree_of env w))) p).
Proof. unfold eval. by rewrite getOverrides_run. Qed.

(** X2: after any sequence of calls that only read (the accessors,
    [getStore], [getOverrides], [getConfig], [getFullConfig]), each of
    the read functions returns what it returned before. *)
Theorem reads_do_not_disturb_reads rs w p :
  forallb is_read rs = true →
  let w' := requests env rs w in
  eval (getConfig env p) w' = eval (getConfig env p) w
  ∧ eval (getStore env) w' = eval (getStore env) w
  ∧ eval (getOverrides env p) w' = eval (getOverrides env p) w.
Proof.
  intros Hrs. cbn zeta.
  destruct (reads_keep_layers rs w Hrs) as [Hd Ht].
  by rewrite !getConfig_eval, !getStore_eval, !getOverrides_eval, Hd, Ht.
Qed.

End ReadFunctions.

(** ** What the handler does and leaves *)

Lemma set_at_first_segment doc p v doc' :
  Lib.set doc p v = Ok doc' → ∃ c, doc' = <[first_segment p := c]> doc.
Proof.
  unfold Lib.set, first_segment.
  pose proof (getPathSegments_nonempty p) as Hne.
  destruct (Lib.getPathSegments p) as [|k rest]; [done|]. cbn [head default].
  destruct rest as [|k' rest'].
  - rewrite set_segments_object_last. intros [= <-]. eauto.
  - rewrite set_segments_object_step.
    destruct (Lib.set_segments _ _ _) as [c|]; [|done]. intros [= <-]. eauto.
Qed.

Section HandlerEffects.
Context (env : Env).

Lemma writing_layers a w :
  document_of env (writing env a w) = document_of env w
  ∧ tree_of env (writing env a w) = tree_of env w
  ∧ sent (writing env a w) = sent w ∧ called (writing env a w) = called w
  ∧ listeners_of (writing env a w) = listeners_of w
  ∧ _store (writing env a w) = _store w.
Proof.
  unfold writing, deciding, document_of, tree_of, listeners_of, add_line, with_logger, parsed.
  destruct w as [st ov lg]; destruct st, ov, lg; done.
Qed.

Lemma handler_other a dispatch w :
  String.eqb (type a) "config:UPDATE" = false →
  registerConfig env dispatch a w = (w, Ok ()).
Proof.
  intros Ht. unfold registerConfig, handleIncomingAction. by rewrite Ht.
Qed.

Lemma handler_rejects a dispatch w :
  String.eqb (type a) "config:UPDATE" = true →
  has_override env w (path (payload a)) = true →
  registerConfig env dispatch a w =
    (add_line info (InOverrides (path (payload a)))
       (with_logger env (deciding env a w)), Ok ()).
Proof.
  intros Ht%String.eqb_eq Ho. by rewrite (handler_run env dispatch a w Ht), Ho.
Qed.

Lemma handler_fails a dispatch w :
  String.eqb (type a) "config:UPDATE" = true →
  has_override env w (path (payload a)) = false →
  ToString_throws (value (payload a)) = true →
  registerConfig env dispatch a w =
    (with_logger env (deciding env a w),
     Throw (TypeError "Cannot convert object to primitive value")).
Proof.
  intros Ht%String.eqb_eq Ho Hv.
  by rewrite (handler_run env dispatch a w Ht), Ho, Hv.
Qed.

Lemma failing_layers a w :
  let w' := with_logger env (deciding env a w) in
  document_of env w' = document_of env w ∧ tree_of env w' = tree_of env w
  ∧ sent w' = sent w ∧ called w' = called w
  ∧ listeners_of w' = listeners_of w.
Proof.
  unfold deciding, document_of, tree_of, listeners_of, add_line, with_logger, parsed.
  destruct w as [st ov lg]; destruct st, ov, lg; done.
Qed.

Lemma handler_writes a w :
  String.eqb (type a) "config:UPDATE" = true →
  has_override env w (path (payload a)) = false →
  ToString_throws (value (payload a)) = false →
  registerConfig env send a w =
    let w2 := writing env a w in
    let w3 := with_reads (S (reads (opened env w2))) (opened env w2) in
    match Lib.set (document_of env w) (path (payload a)) (value (payload a)) with
    | Ok doc' =>
        (with_sent
           (sent w ++ [{| type := "config:SET"; payload := payload a |}])%list
           (after_write doc' w3), Ok ())
    | Throw e => (w3, Throw e)
    end.
Proof.
  intros Ht%String.eqb_eq Ho Hv. rewrite (handler_run env send a w Ht), Ho, Hv.
  cbn zeta. fold (deciding env a w). fold (writing env a w).
  rewrite write_branch_run. cbn zeta.
  destruct (writing_layers a w) as (-> & _ & -> & _).
  reflexivity.
Qed.

Lemma rejecting_layers a w :
  let w' := add_line info (InOverrides (path (payload a)))
              (with_logger env (deciding env a w)) in
  document_of env w' = document_of env w ∧ tree_of env w' = tree_of env w
  ∧ sent w' = sent w ∧ called w' = called w.
Proof.
  unfold deciding, document_of, tree_of, add_line, with_logger, parsed.
  destruct w as [st ov lg]; destruct st, ov, lg; done.
Qed.

(** X3: a rejected [config:UPDATE] changes no read: [getConfig] and
    [getOverrides] of every path, and [getStore], return afterwards
    what they returned before. *)
Theorem rejected_update_changes_no_read a dispatch w q :
  String.eqb (type a) "config:UPDATE" = true →
  has_override env w (path (payload a)) = true →
  let w' := exec (registerConfig env dispatch a) w in
  eval (getConfig env q) w' = eval (getConfig env q) w
  ∧ eval (getStore env) w' = eval (getStore env) w
  ∧ eval (getOverrides env q) w' = eval (getOverrides env q) w.
Proof.
  intros Ht Ho. cbn zeta. unfold exec at 1 2 3.
  rewrite (handler_rejects a dispatch w Ht Ho). cbn [fst].
  destruct (rejecting_layers a w) as (Hd & Htree & _).
  by rewrite !getConfig_eval, !getStore_eval, !getOverrides_eval, Hd, Htree.
Qed.

(** X4: whatever the action, the handler sends nothing or exactly one
    action, and that one is [config:SET] with the payload of the
    request. *)
Theorem handler_sends_at_most_one_SET a w :
  let w' := exec (registerConfig env send a) w in
  sent w' = sent w
  ∨ sent w' = (sent w ++ [{| type := "config:SET"; payload := payload a |}])%list.
Proof.
  cbn zeta. unfold exec.
  destruct (String.eqb (type a) "config:UPDATE") eqn:Ht.
  2:{ rewrite (handler_other a send w Ht). by left. }
  destruct (has_override env w (path (payload a))) eqn:Ho.
  { rewrite (handler_rejects a send w Ht Ho). cbn [fst].
    left. by destruct (rejecting_layers a w) as (_ & _ & -> & _). }
  destruct (ToString_throws (value (payload a))) eqn:Hv.
  { rewrite (handler_fails a send w Ht Ho Hv). cbn [fst].
    left. by destruct (failing_layers a w) as (_ & _ & -> & _). }
  rewrite (handler_writes a w Ht Ho Hv). cbn zeta.
  destruct (Lib.set _ _ _) as [doc'|e]; cbn [fst].
  - right. unfold after_write, opened.
    destruct (writing env a w) as [st]; destruct st; reflexivity.
  - left. destruct (writing_layers a w) as (_ & _ & Hs & _). rewrite <- Hs.
    unfold opened. destruct (writing env a w) as [st]; destruct st; reflexivity.
Qed.

(** X5: when the handler throws, because the value has no string for
    the log line or because the write throws, nothing was sent, no
    callback ran, and the document and the listeners are as they
    were. *)
Theorem failed_update_is_not_broadcast a w e :
  eval (registerConfig env send a) w = Throw e →
  let w' := exec (registerConfig env send a) w in
  sent w' = sent w ∧ called w' = called w
  ∧ document_of env w' = document_of env w
  ∧ listeners_of w' = listeners_of w.
Proof.
  cbn zeta. unfold eval, exec.
  destruct (String.eqb (type a) "config:UPDATE") eqn:Ht.
  2:{ by rewrite (handler_other a send w Ht). }
  destruct (has_override env w (path (payload a))) eqn:Ho.
  { by rewrite (handler_rejects a send w Ht Ho). }
  destruct (ToString_throws (value (payload a))) eqn:Hv.
  { rewrite (handler_fails a send w Ht Ho Hv). cbn [fst]. intros _.
    by destruct (failing_layers a w) as (-> & _ & -> & -> & ->). }
  rewrite (handler_writes a w Ht Ho Hv). cbn zeta.
  destruct (Lib.set _ _ _) as [doc'|e']; cbn [fst snd]; [done|].
  intros _.
  destruct (writing_layers a w) as (Hd & _ & Hs & Hc & Hl & _).
  rewrite <- Hs, <- Hc, <- Hd, <- Hl. unfold opened, document_of, listeners_of.
  destruct (writing env a w) as [st]; destruct st; done.
Qed.

Lemma handler_document a w :
  let w' := exec (registerConfig env send a) w in
  document_of env w' = document_of env w
  ∨ ∃ c, document_of env w' = <[first_segment (path (payload a)) := c]> (document_of env w).
Proof.
  cbn zeta. unfold exec.
  destruct (String.eqb (type a) "config:UPDATE") eqn:Ht.
  2:{ rewrite (handler_other a send w Ht). by left. }
  destruct (has_override env w (path (payload a))) eqn:Ho.
  { rewrite (handler_rejects a send w Ht Ho). cbn [fst].
    left. by destruct (rejecting_layers a w) as (-> & _). }
  destruct (ToString_throws (value (payload a))) eqn:Hv.
  { rewrite (handler_fails a send w Ht Ho Hv). cbn [fst].
    left. by destruct (failing_layers a w) as (-> & _). }
  rewrite (handler_writes a w Ht Ho Hv). cbn zeta.
  destruct (writing_layers a w) as (Hd & _).
  destruct (Lib.set _ _ _) as [doc'|e] eqn:Hset; cbn [fst].
  - right. destruct (set_at_first_segment _ _ _ _ Hset) as [c ->]. exists c.
    unfold after_write, opened, document_of.
    destruct (writing env a w) as [st]; destruct st; reflexivity.
  - left. rewrite <- Hd. unfold opened, document_of.
    destruct (writing env a w) as [st]; destruct st; reflexivity.
Qed.

Lemma handler_tree a w :
  tree_of env (exec (registerConfig env send a) w) = tree_of env w.
Proof.
  unfold exec.
  destruct (String.eqb (type a) "config:UPDATE") eqn:Ht.
  2:{ by rewrite (handler_other a send w Ht). }
  destruct (has_override env w (path (payload a))) eqn:Ho.
  { rewrite (handler_rejects a send w Ht Ho). cbn [fst].
    by destruct (rejecting_layers a w) as (_ & -> & _). }
  destruct (ToString_throws (value (payload a))) eqn:Hv.
  { rewrite (handler_fails a send w Ht Ho Hv). cbn [fst].
    by destruct (failing_layers a w) as (_ & -> & _). }
  rewrite (handler_writes a w Ht Ho Hv). cbn zeta.
  destruct (writing_layers a w) as (_ & Ht' & _). rewrite <- Ht'.
  destruct (Lib.set _ _ _) as [doc'|e]; cbn [fst];
    unfold after_write, opened, tree_of;
    destruct (writing env a w) as [st]; destruct st; reflexivity.
Qed.

(** X6: an action leaves the other sections alone: for a top-level key
    that is not the first segment of the request's path, [getConfig]
    returns afterwards what it returned before. *)
Theorem update_leaves_other_sections a w k :
  plain_key k = true →
  String.eqb (first_segment (path (payload a))) k = false →
  let w' := exec (registerConfig env send a) w in
  eval (getConfig env (Some k)) w' = eval (getConfig env (Some k)) w.
Proof.
  intros Hk Hne%String.eqb_neq. cbn zeta.
  rewrite !getConfig_eval, handler_tree, !(get_plain _ _ Hk).
  destruct (handler_document a w) as [->|[c ->]]; [done|].
  by rewrite lookup_insert_ne.
Qed.

End HandlerEffects.

(** ** Invariants of the stored document and the listeners *)

Lemma set_keeps_keys doc p v doc' :
  Lib.set doc p v = Ok doc' → dom doc ⊆ dom doc'.
Proof.
  intros [c ->]%set_at_first_segment. rewrite dom_insert. set_solver.
Qed.

Lemma emit_change_calls doc' doc subs :
  in_step doc subs →
  (Lib.emit_change doc' subs).2 = changed_calls doc doc' subs.
Proof.
  induction 1 as [|s subs Hs _ IH]; [done|].
  cbn [Lib.emit_change changed_calls flat_map]. unfold Lib.onChange.
  fold (changed_calls doc doc' subs). rewrite <- IH, <- Hs.
  destruct (decide _); destruct (Lib.emit_change doc' subs); done.
Qed.

Lemma changed_calls_only doc doc' subs :
  ∃ ls,
    sublist ls subs
    ∧ Forall (λ s, Lib.get (JObj doc') (Some (Lib.sub_key s))
                   ≠ Lib.get (JObj doc) (Some (Lib.sub_key s))) ls
    ∧ map Lib.call_callback (changed_calls doc doc' subs)
      = map Lib.sub_callback ls
    ∧ map Lib.call_new (changed_calls doc doc' subs)
      = map (λ s, Lib.get (JObj doc') (Some (Lib.sub_key s))) ls.
Proof.
  induction subs as [|s subs (ls & Hsub & Hch & Hcb & Hnew)].
  { exists []. by repeat split. }
  cbn [changed_calls flat_map]. fold (changed_calls doc doc' subs).
  destruct (decide _) as [Heq|Hne].
  - exists ls. repeat split; try done. by apply sublist_cons.
  - exists (s :: ls). cbn [app map Lib.call_callback Lib.call_new].
    rewrite Hcb, Hnew. repeat split; [by apply sublist_skip|by constructor].
Qed.

Section Invariants.
Context (env : Env).

(** An invariant of the module's parts is an invariant of every call
    into the module. *)
Lemma invariant_of_requests (I : World → Prop) :
  preserves I (store env) → preserves I (overrides env) →
  preserves I (log env) → preserves I Store_store →
  (∀ k v, preserves I (Store_set k v)) →
  (∀ k h, preserves I (Store_onDidChange k h)) →
  (∀ l m, preserves I (Logger_log l m)) →
  (∀ a, preserves I (send a)) →
  ∀ rs w, I w → I (requests env rs w).
Proof.
  intros Hstore Hover Hlog Hread Hset Hsub Hline Hsend.
  assert (∀ key, preserves I (Store_get key)) as Hget.
  { intros key. unfold Store_get. apply preserves_bind; [done|].
    intros ?. apply preserves_ret. }
  assert (∀ p, preserves I (getConfig env p)) as Hconfig.
  { intros p. unfold getConfig.
    apply preserves_bind; [done|intros _].
    apply preserves_bind; [done|intros result].
    apply preserves_bind; [done|intros tree].
    destruct (not_nullish _); [|apply preserves_ret].
    destruct (is_object_type _); [|apply preserves_ret].
    apply preserves_bind; [apply preserves_lift|intros ?; apply preserves_ret]. }
  assert (∀ r w, I w → I (request env r w)) as Hreq.
  { intros r. destruct r; cbn [request]; try done.
    - unfold registerConfig, handleIncomingAction.
      destruct (String.eqb _ _); [|apply preserves_ret].
      apply preserves_bind; [done|intros _].
      apply preserves_bind; [done|intros _].
      apply preserves_bind; [done|intros over].
      destruct (not_nullish _).
      + apply preserves_bind; [done|intros _]. done.
      + apply preserves_bind; [done|intros _].
        apply preserves_bind; [apply preserves_lift|intros message].
        apply preserves_bind; [done|intros _].
        apply preserves_bind; [done|intros _].
        apply preserves_bind; [done|intros _]. done.
    - unfold getStore. apply preserves_bind; [done|intros _]. done.
    - unfold getOverrides. apply preserves_bind; [done|intros ?].
      apply preserves_ret.
    - apply Hconfig.
    - apply Hconfig.
    - unfold handleConfigChange. apply preserves_bind; [done|intros _]. done. }
  induction rs as [|r rs IH]; intros w Hw; [done|].
  apply IH. by apply Hreq.
Qed.

Lemma in_step_store : preserves listeners_in_step (store env).
Proof.
  intros w. unfold exec. destruct (store_run env w) as [s ->].
  unfold listeners_in_step, listeners_of, opened.
  destruct w as [st]; destruct st; [done|]. intros _. constructor.
Qed.

Lemma in_step_Store_set k v : preserves listeners_in_step (Store_set k v).
Proof.
  intros w. unfold exec. rewrite Store_set_run.
  unfold listeners_in_step, listeners_of, after_write.
  destruct (Lib.set _ _ _) as [doc'|e]; destruct w as [st]; destruct st as [[ls]|];
    cbn; try done; intros _; try constructor.
  apply emit_change_in_step.
Qed.

Lemma in_step_Store_onDidChange k h :
  preserves listeners_in_step (Store_onDidChange k h).
Proof.
  intros w. unfold exec, Store_onDidChange.
  rewrite bind_run, Store_get_run, bind_run. unfold gets, modify.
  unfold listeners_in_step, listeners_of, in_step.
  destruct w as [st]; destruct st as [[ls]|]; cbn; [|done].
  intros H. apply Forall_app. split; [done|]. by repeat constructor.
Qed.

Lemma listeners_stay_in_step file rs :
  listeners_in_step (requests env rs (boot file)).
Proof.
  apply invariant_of_requests.
  - apply in_step_store.
  - intros w. unfold exec. rewrite overrides_run.
    unfold listeners_in_step, listeners_of, parsed.
    by destruct w as [st ov]; destruct ov.
  - intros w. unfold exec. destruct (log_run env w) as [l ->].
    unfold listeners_in_step, listeners_of, with_logger.
    by destruct w as [st ov lg]; destruct lg.
  - by intros [].
  - apply in_step_Store_set.
  - apply in_step_Store_onDidChange.
  - by intros ? ? [].
  - by intros ? [].
  - constructor.
Qed.

Lemma defaults_present_Store_set k v :
  preserves (defaults_present env) (Store_set k v).
Proof.
  intros w. unfold exec. rewrite Store_set_run.
  unfold defaults_present, document_of, after_write.
  destruct (Lib.set _ _ _) as [doc'|e] eqn:Hset;
    destruct w as [st]; destruct st; cbn in *; try done;
    apply set_keeps_keys in Hset; intros H.
  - by etrans.
  - rewrite dom_union. apply union_subseteq_r.
Qed.

Lemma defaults_stay_present file rs :
  defaults_present env (requests env rs (boot file)).
Proof.
  apply invariant_of_requests.
  - intros w. unfold exec. destruct (store_run env w) as [s ->]. cbn [fst].
    unfold defaults_present. by rewrite document_of_opened.
  - intros w. unfold exec. rewrite overrides_run. cbn [fst].
    unfold defaults_present. by rewrite document_of_parsed.
  - intros w. unfold exec. destruct (log_run env w) as [l ->]. cbn [fst].
    unfold defaults_present. by rewrite document_of_with_logger.
  - by intros [].
  - apply defaults_present_Store_set.
  - intros k h w. unfold exec, Store_onDidChange.
    rewrite bind_run, Store_get_run, bind_run. unfold gets, modify.
    unfold defaults_present, document_of.
    by destruct w as [st]; destruct st.
  - by intros ? ? [].
  - by intros ? [].
  - unfold defaults_present, document_of. cbn. rewrite dom_union.
    apply union_subseteq_r.
Qed.

(** X8: after any sequence of calls into the module, from the start of
    the process, the stored document and the full configuration hold
    every top-level key of the defaults: a write replaces or adds
    sections, it never removes one. *)
Theorem default_sections_are_never_lost file rs :
  let w := requests env rs (boot file) in
  ∃ doc full,
    eval (getStore env) w = Ok doc
    ∧ eval (getFullConfig env) w = Ok (Some (JObj full))
    ∧ dom (DEFAULTS env) ⊆ dom doc ∧ dom (DEFAULTS env) ⊆ dom full.
Proof.
  intros w. pose proof (defaults_stay_present file rs) as H. fold w in H.
  exists (document_of env w), (Lib.mergeKeys (document_of env w) (tree_of env w)).
  split; [apply getStore_eval|]. split.
  - unfold getFullConfig. rewrite getConfig_eval.
    unfold resolved, Lib.get, Lib.getIn, Lib.toPath.
    cbn [Lib.getter not_nullish is_object_type].
    by rewrite mergeOptions_objects.
  - split; [done|]. intros k Hk. apply H in Hk.
    apply elem_of_dom in Hk as [x Hx]. apply elem_of_dom.
    rewrite mergeKeys_lookup, Hx. destruct (tree_of env w !! k); eauto.
Qed.

(** X9: at the first use of the store, a top-level key without override
    reads as the file's value when the file has the key, whole (the
    defaults of that section are not filled in), and as the default
    otherwise. *)
Theorem first_run_takes_file_then_defaults file k :
  plain_key k = true →
  has_override env (boot file) k = false →
  eval (getConfig env (Some k)) (boot file)
  = Ok (match file !! k with
        | Some v => Some v
        | None => DEFAULTS env !! k
        end).
Proof.
  intros Hk Ho. rewrite has_override_eq in Ho.
  rewrite getConfig_eval. unfold resolved. rewrite Ho.
  rewrite (get_plain _ _ Hk). unfold document_of. cbn [_store boot disk].
  rewrite lookup_union. by destruct (file !! k), (DEFAULTS env !! k).
Qed.

End Invariants.

(** ** Callbacks and start-up *)

Section Callbacks.
Context (env : Env).

(** X10: [main.js] enables the developer tools exactly when the override
    at [devtools] is truthy, if there is one, whatever is stored; the
    stored value counts only without override. *)
Theorem devtools_override_decides_alone w :
  eval (main_enables_devtools env) w
  = Ok (match tree_of env w !! "devtools" with
        | Some over => truthy (Some over)
        | None => truthy (document_of env w !! "devtools")
        end).
Proof.
  unfold eval, main_enables_devtools. rewrite bind_run.
  pose proof (getConfig_eval env None w) as He. unfold eval in He.
  destruct (getConfig env None w) as [w' r]. cbn [snd] in He. subst r.
  unfold resolved, Lib.get, Lib.getIn, Lib.toPath.
  cbn [Lib.getter not_nullish is_object_type].
  rewrite mergeOptions_objects. cbn [not_nullish js_prop own_enumerable].
  rewrite mergeKeys_lookup.
  destruct (tree_of env w !! "devtools") as [ov|],
           (document_of env w !! "devtools") as [sv|]; try done.
  destruct sv, ov; done.
Qed.

(** X7: in any state the module can reach, the handler runs change
    callbacks only of listeners whose path holds another value after
    the call than before: the callbacks run are those of some of these
    listeners, in registration order, one call each, and each is given
    the value now stored at its path as the new value. *)
Theorem update_calls_back_only_where_the_value_changed file rs a :
  let w := requests env rs (boot file) in
  let w' := exec (registerConfig env send a) w in
  ∃ ls cs,
    called w' = (called w ++ cs)%list
    ∧ sublist ls (listeners_of w)
    ∧ Forall (λ s, Lib.get (JObj (document_of env w')) (Some (Lib.sub_key s))
                   ≠ Lib.get (JObj (document_of env w)) (Some (Lib.sub_key s))) ls
    ∧ map Lib.call_callback cs = map Lib.sub_callback ls
    ∧ map Lib.call_new cs
      = map (λ s, Lib.get (JObj (document_of env w')) (Some (Lib.sub_key s))) ls.
Proof.
  intros w w'. pose proof (listeners_stay_in_step env file rs) as Hin.
  fold w in Hin. clearbody w. unfold w', exec.
  assert (∀ x : World, called x = called w →
            document_of env x = document_of env w →
            ∃ ls cs,
              called x = (called w ++ cs)%list
              ∧ sublist ls (listeners_of w)
              ∧ Forall (λ s, Lib.get (JObj (document_of env x)) (Some (Lib.sub_key s))
                   ≠ Lib.get (JObj (document_of env w)) (Some (Lib.sub_key s))) ls
              ∧ map Lib.call_callback cs = map Lib.sub_callback ls
              ∧ map Lib.call_new cs
                = map (λ s, Lib.get (JObj (document_of env x)) (Some (Lib.sub_key s))) ls)
    as Hquiet.
  { intros x Hc Hd. exists [], []. rewrite app_nil_r.
    repeat split; [done|apply sublist_nil_l|constructor]. }
  destruct (String.eqb (type a) "config:UPDATE") eqn:Ht.
  2:{ rewrite (handler_other env a send w Ht). by apply Hquiet. }
  destruct (has_override env w (path (payload a))) eqn:Ho.
  { rewrite (handler_rejects env a send w Ht Ho). cbn [fst].
    destruct (rejecting_layers env a w) as (Hd & _ & _ & Hc). by apply Hquiet. }
  destruct (ToString_throws (value (payload a))) eqn:Hv.
  { rewrite (handler_fails env a send w Ht Ho Hv). cbn [fst].
    destruct (failing_layers env a w) as (Hd & _ & _ & Hc & _). by apply Hquiet. }
  rewrite (handler_writes env a w Ht Ho Hv). cbn zeta.
  destruct (writing_layers env a w) as (Hd & _ & _ & Hc & Hl & Hst).
  assert (in_step (disk (writing env a w)) (listeners_of (writing env a w))) as Hin'.
  { revert Hin. unfold listeners_in_step. rewrite Hl.
    unfold writing, deciding, add_line, with_logger, parsed.
    by destruct w as [st ov lg]; destruct ov, lg. }
  destruct (Lib.set _ _ _) as [doc'|e]; cbn [fst].
  2:{ apply Hquiet.
      - rewrite <- Hc. unfold opened.
        by destruct (writing env a w) as [st]; destruct st.
      - rewrite <- Hd. unfold opened, document_of.
        by destruct (writing env a w) as [st]; destruct st. }
  destruct (changed_calls_only (document_of env w) doc' (listeners_of w))
    as (ls & Hsub & Hch & Hcb & Hnew).
  exists ls, (changed_calls (document_of env w) doc' (listeners_of w)).
  set (x := with_sent _ _).
  assert (document_of env x = doc') as ->.
  { unfold x, after_write, opened, document_of.
    by destruct (writing env a w) as [st]; destruct st. }
  repeat split; try done.
  rewrite <- Hc, <- Hl, <- Hd. clear Hd Hc Hl Hst Hin Hsub Hch Hcb Hnew.
  revert Hin'. unfold x, listeners_of, after_write, opened, document_of.
  destruct (writing env a w) as [st]; destruct st as [[l0]|]; cbn; [|done].
  intros Hin. by rewrite (emit_change_calls _ _ _ Hin).
Qed.

(** X11: [handleConfigChange] only registers: the listener is added
    after the others, with the value now stored at its path, no
    callback runs, nothing is sent or logged, and the document is the
    one [store()] gives access to. *)
Theorem handleConfigChange_only_registers p h w :
  let w' := exec (handleConfigChange env p h) w in
  eval (handleConfigChange env p h) w = Ok ()
  ∧ disk w' = document_of env w
  ∧ listeners_of w' =
      (listeners_of w ++
        [{| Lib.sub_key := p; Lib.sub_callback := h;
            Lib.sub_current := Lib.get (JObj (document_of env w)) (Some p) |}])%list
  ∧ called w' = called w ∧ sent w' = sent w ∧ logged w' = logged w.
Proof.
  cbn zeta. unfold eval, exec, handleConfigChange.
  rewrite bind_run. destruct (store_run env w) as [s ->].
  unfold Store_onDidChange. rewrite bind_run, Store_get_run, bind_run.
  unfold gets, modify, opened, document_of, listeners_of.
  destruct w as [st]; destruct st as [[ls]|]; cbn; done.
Qed.

End Callbacks.

(** ** More properties at sample inputs *)

(** X2 after reading the full configuration, the store and the
    overrides. *)
Lemma reads_do_not_disturb_reads_witness :
  let env := sample_env console_debug in
  let w' := requests env [GetFullConfig; GetStore; GetOverrides None] (boot ∅) in
  eval (getConfig env (Some "log.level")) w'
  = eval (getConfig env (Some "log.level")) (boot ∅).
Proof.
  intros env w'.
  destruct (reads_do_not_disturb_reads env
              [GetFullConfig; GetStore; GetOverrides None] (boot ∅)
              (Some "log.level")) as (H & _ & _).
  - reflexivity.
  - exact H.
Defined.

(** X3 at the rejected request to set [log.level.console]. *)
Lemma rejected_update_changes_no_read_witness :
  let env := sample_env console_debug in
  let a := update "log.level.console" (JStr "silly") in
  eval (getConfig env (Some "log")) (exec (registerConfig env send a) (boot ∅))
  = eval (getConfig env (Some "log")) (boot ∅).
Proof.
  intros env a.
  destruct (rejected_update_changes_no_read env a send (boot ∅) (Some "log"))
    as (H & _ & _).
  - reflexivity.
  - vm_compute. reflexivity.
  - exact H.
Defined.

(** X5 at a value that has an own member [toString]: the log line
    cannot be built, so nothing is written and nothing is sent. *)
Lemma failed_update_is_not_broadcast_witness :
  let env := sample_env no_flags in
  let a := update "ui.width" (object [("toString", JNum 0)]) in
  let w' := exec (registerConfig env send a) (boot ∅) in
  sent w' = [] ∧ eval (getConfig env (Some "ui.width")) w' = Ok (Some (JNum 1024)).
Proof.
  intros env a w'.
  destruct (failed_update_is_not_broadcast env a (boot ∅)
              (TypeError "Cannot convert object to primitive value"))
    as (Hs & _ & _ & _).
  - vm_compute. reflexivity.
  - split; [exact Hs|]. vm_compute. reflexivity.
Defined.

(** X6 at a write to [ui.width], read at [log]. *)
Lemma update_leaves_other_sections_witness :
  let env := sample_env console_debug in
  let a := update "ui.width" (JNum 800) in
  eval (getConfig env (Some "log")) (exec (registerConfig env send a) (boot ∅))
  = eval (getConfig env (Some "log")) (boot ∅).
Proof.
  intros env a.
  apply (update_leaves_other_sections env a (boot ∅) "log"); reflexivity.
Defined.

(** X9 with a file that holds its own [ui] section: the section is the
    file's, without the defaults' [height]. *)
Lemma first_run_takes_file_then_defaults_witness :
  let env := sample_env no_flags in
  let file : obj := list_to_map [("ui", object [("width", JNum 800)])] in
  eval (getConfig env (Some "ui")) (boot file)
  = Ok (Some (object [("width", JNum 800)]))
  ∧ eval (getConfig env (Some "devtools")) (boot file)
    = Ok (Some (JBool false)).
Proof.
  intros env file. split.
  - rewrite (first_run_takes_file_then_defaults env file "ui");
      [|reflexivity|vm_compute; reflexivity].
    vm_compute. reflexivity.
  - rewrite (first_run_takes_file_then_defaults env file "devtools");
      [|reflexivity|vm_compute; reflexivity].
    vm_compute. reflexivity.
Defined.
